(** * tcpcm-transcriber: text chunker and text normalizer

    A shallow embedding of [tcpcm_transcriber/chunk.py],
    [tcpcm_transcriber/normalize.py] and the two records of
    [tcpcm_transcriber/schemas.py] they use, followed by the properties
    of the chunker and of the normalizer.  The segment loop of
    [tcpcm_transcriber/asr.py], the exporters of
    [tcpcm_transcriber/export.py] and the naming and format selection of
    [tcpcm_transcriber/cli.py] are embedded as well, with what they take
    from outside the repository, or compute with floats, as arguments.

    Modelling conventions.
    - Python [int] is [Z].  A [str] is a list of characters; characters
      are the code points U+0000..U+00FF, carried by [ascii], with
      Python's own tables for [str.isspace], [str.lower] and the regular
      expression class [\w] on that range.
    - The [float] timestamps of a [Segment] are only copied and compared
      for equality, never computed with: their type is a parameter
      [time] with a decidable equality.
    - [Segment] is a pydantic model that is not declared frozen: it is
      compared field by field and has no [__hash__], so [hash] of a
      segment raises [TypeError], and with it [set.add] of a segment.
    - A call either returns, raises or exhausts the iteration budget of
      the model: see [result]. *)

From Stdlib Require Import Ascii String.
From Stdlib Require Import ZArith List Bool Lia Arith.
From Stdlib Require Import Sorted Permutation ListSet.
From Stdlib Require DecimalString.
Import ListNotations.

Open Scope Z_scope.

(* ================================================================= *)
(** * Python primitives *)

Module Py.

Definition str := list ascii.

(** A string literal. *)
Definition lit (s : string) : str := list_ascii_of_string s.

Definition len {A : Type} (l : list A) : Z := Z.of_nat (length l).

Inductive exn : Type :=
| ValueError (msg : string)
| IndexError
| TypeError (msg : string).

(** Outcome of a call: a value, an exception, or [OutOfFuel] when the
    model's iteration budget ran out before the loop finished. *)
Inductive result (A : Type) : Type :=
| Ok (a : A)
| Raise (e : exn)
| OutOfFuel.

Arguments Ok {A} a.
Arguments Raise {A} e.
Arguments OutOfFuel {A}.

Definition bind {A B : Type} (r : result A) (k : A -> result B) : result B :=
  match r with
  | Ok a => k a
  | Raise e => Raise e
  | OutOfFuel => OutOfFuel
  end.

Definition fmap {A B : Type} (f : A -> B) (r : result A) : result B :=
  bind r (fun a => Ok (f a)).

Notation "x <- r ;; k" := (bind r (fun x => k))
  (at level 61, r at next level, right associativity).

(** [str.isspace] of one character, which is also the class [\s] and the
    set that [str.strip()] removes: TAB..CR, FS..US, space, NEL, NBSP. *)
Definition isspace (c : ascii) : bool :=
  let n := N_of_ascii c in
  ((9 <=? n) && (n <=? 13) || (28 <=? n) && (n <=? 32)
   || (n =? 133) || (n =? 160))%N.

(** The class [\w] of a [str] pattern: alphanumeric or underscore. *)
Definition isword (c : ascii) : bool :=
  let n := N_of_ascii c in
  ((48 <=? n) && (n <=? 57) || (65 <=? n) && (n <=? 90) || (n =? 95)
   || (97 <=? n) && (n <=? 122)
   || (n =? 170) || (n =? 178) || (n =? 179) || (n =? 181)
   || (n =? 185) || (n =? 186) || (188 <=? n) && (n <=? 190)
   || (192 <=? n) && (n <=? 214) || (216 <=? n) && (n <=? 246)
   || (248 <=? n))%N.

(** [str.lower] of one character. *)
Definition lower_char (c : ascii) : ascii :=
  let n := N_of_ascii c in
  if ((65 <=? n) && (n <=? 90)
      || (192 <=? n) && (n <=? 222) && negb (n =? 215))%N
  then ascii_of_N (n + 32) else c.

Definition lower (s : str) : str := map lower_char s.

Definition str_eq_dec : forall a b : str, {a = b} + {a <> b} :=
  list_eq_dec ascii_dec.

Definition str_eqb (a b : str) : bool :=
  if str_eq_dec a b then true else false.

Fixpoint lstrip (s : str) : str :=
  match s with
  | [] => []
  | c :: s' => if isspace c then lstrip s' else s
  end.

Definition rstrip (s : str) : str := rev (lstrip (rev s)).

(** [s.strip()] *)
Definition strip (s : str) : str := rstrip (lstrip s).

(** A slice bound, as Python resolves it against a sequence of length
    [n]: negative bounds count from the end, all bounds are clamped. *)
Definition clamp_index (n i : Z) : Z :=
  if i <? 0 then Z.max (i + n) 0 else Z.min i n.

(** [l[lo:hi]] *)
Definition slice {A : Type} (l : list A) (lo hi : Z) : list A :=
  let lo' := clamp_index (len l) lo in
  let hi' := clamp_index (len l) hi in
  firstn (Z.to_nat (hi' - lo')) (skipn (Z.to_nat lo') l).

(** [range(lo, hi)] *)
Definition range (lo hi : Z) : list Z :=
  map (fun k => lo + Z.of_nat k) (seq 0 (Z.to_nat (hi - lo))).

(** [l[i]]: negative indices count from the end, anything else out of
    range raises [IndexError]. *)
Definition getitem {A : Type} (l : list A) (i : Z) : result A :=
  let j := if i <? 0 then i + len l else i in
  if j <? 0 then Raise IndexError
  else match nth_error l (Z.to_nat j) with
       | Some a => Ok a
       | None => Raise IndexError
       end.

End Py.

Import Py.

(* ================================================================= *)
(** * schemas.py *)

Module Schemas.
Section Schemas.

Variable time : Type.

Record Segment : Type := mkSegment {
  seg_id : Z;
  seg_start : time;
  seg_end : time;
  seg_text : str
}.

Record Chunk : Type := mkChunk {
  chunk_id : Z;
  chunk_text : str;
  chunk_start : time;
  chunk_end : time;
  segment_ids : list Z;
  char_count : Z;
  source_file : option str
}.

(** [hash(segment)].  [Segment] derives from [BaseModel] without
    [frozen]: pydantic gives such a class an [__eq__] and no [__hash__],
    so the call raises. *)
Definition Segment_hash (seg : Segment) : result Z :=
  Raise (TypeError "unhashable type: 'Segment'").

Variable time_eq_dec : forall a b : time, {a = b} + {a <> b}.

(** [a == b] on segments: field by field. *)
Definition Segment_eq_dec : forall a b : Segment, {a = b} + {a <> b}.
Proof.
  decide equality.
  - apply str_eq_dec.
  - apply Z.eq_dec.
Defined.

End Schemas.

Arguments mkSegment {time}.
Arguments seg_id {time}.
Arguments seg_start {time}.
Arguments seg_end {time}.
Arguments seg_text {time}.
Arguments mkChunk {time}.
Arguments chunk_id {time}.
Arguments chunk_text {time}.
Arguments chunk_start {time}.
Arguments chunk_end {time}.
Arguments segment_ids {time}.
Arguments char_count {time}.
Arguments source_file {time}.
Arguments Segment_hash {time}.
Arguments Segment_eq_dec {time}.

End Schemas.

Import Schemas.

(* ================================================================= *)
(** * chunk.py *)

Module Chunker.

(** The state an instance holds after [__init__]. *)
Record TextChunker : Type := mkTextChunker {
  target_chars : Z;
  overlap_chars : Z;
  stride : Z
}.

(** [TextChunker.__init__] *)
Definition TextChunker_init (target overlap : Z) : result TextChunker :=
  if overlap >=? target
  then Raise (ValueError "overlap_chars must be less than target_chars")
  else Ok {| target_chars := target;
             overlap_chars := overlap;
             stride := target - overlap |}.

Section ChunkSegments.

Variable time : Type.
Variable time_eq_dec : forall a b : time, {a = b} + {a <> b}.

Local Abbreviation Segment := (Segment time).
Local Abbreviation Chunk := (Chunk time).
Local Abbreviation seg_eq_dec := (Segment_eq_dec time_eq_dec).

(** What one iteration of the sliding-window loop did with its window:
    emitted a chunk, emitted nothing because no segment mapped into the
    window, or left the loop because the trimmed window text was empty. *)
Inductive outcome : Type :=
| Emitted (c : Chunk)
| Skipped
| EmptyStop.

(** One window [full_text[w_start:w_end]] the loop looked at. *)
Record window : Type := mkWindow {
  w_start : Z;
  w_end : Z;
  w_outcome : outcome
}.

(** The first loop of [chunk_segments]: the text of the segments, each
    followed by a space, and for each character the segment it is from. *)
Definition join_segments (segments : list Segment) : str * list Segment :=
  fold_left
    (fun (acc : str * list Segment) seg =>
       let (full_text, char_to_segment) := acc in
       let piece := seg_text seg ++ [" "%char] in
       (full_text ++ piece, char_to_segment ++ repeat seg (length piece)))
    segments ([], []).

(** [s.add(seg)] on a set of segments: the new member is hashed, then
    put in unless a member equal to it is there already. *)
Definition set_add_segment (seg : Segment) (s : list Segment)
  : result (list Segment) :=
  _ <- Segment_hash seg ;;
  Ok (set_add seg_eq_dec seg s).

(** [sorted(..., key=lambda s: s.id)]: a stable sort, smallest id first. *)
Fixpoint insert_by_id (x : Segment) (l : list Segment) : list Segment :=
  match l with
  | [] => [x]
  | y :: l' =>
      if seg_id y <? seg_id x then y :: insert_by_id x l' else x :: l
  end.

Fixpoint sorted_by_id (l : list Segment) : list Segment :=
  match l with
  | [] => []
  | x :: l' => insert_by_id x (sorted_by_id l')
  end.

Section Loop.

Variable self : TextChunker.
Variable full_text : str.
Variable char_to_segment : list Segment.
Variable src : option str.

(** The [for i in range(...)] loop that fills the set [chunk_segments],
    the set being kept in order of first insertion. *)
Fixpoint add_segments (indices : list Z) (acc : list Segment)
  : result (list Segment) :=
  match indices with
  | [] => Ok acc
  | i :: rest =>
      if i <? len char_to_segment then
        seg <- getitem char_to_segment i ;;
        acc' <- set_add_segment seg acc ;;
        add_segments rest acc'
      else add_segments rest acc
  end.

(** The [while] loop, one window per iteration.  [fuel] bounds the
    number of iterations. *)
Fixpoint chunk_loop (fuel : nat) (start_char next_id : Z)
  : result (list window) :=
  match fuel with
  | O => OutOfFuel
  | S fuel' =>
      if start_char <? len full_text then
        let end_char :=
          Z.min (start_char + target_chars self) (len full_text) in
        let text := strip (slice full_text start_char end_char) in
        match text with
        | [] => Ok [mkWindow start_char end_char EmptyStop]
        | _ :: _ =>
            members <- add_segments
                         (range start_char
                                (Z.min end_char (len char_to_segment)))
                         [] ;;
            let chunk_segments := sorted_by_id members in
            let w :=
              match chunk_segments with
              | [] => mkWindow start_char end_char Skipped
              | first :: _ =>
                  mkWindow start_char end_char
                    (Emitted
                       {| chunk_id := next_id;
                          chunk_text := text;
                          chunk_start := seg_start first;
                          chunk_end := seg_end (last chunk_segments first);
                          segment_ids := map seg_id chunk_segments;
                          char_count := len text;
                          source_file := src |})
              end in
            let next_id' :=
              match chunk_segments with
              | [] => next_id
              | _ :: _ => next_id + 1
              end in
            if end_char >=? len full_text then Ok [w]
            else
              ws <- chunk_loop fuel' (start_char + stride self) next_id' ;;
              Ok (w :: ws)
        end
      else Ok []
  end.

End Loop.

(** The chunks among the windows, in emission order. *)
Definition chunks_of (ws : list window) : list Chunk :=
  flat_map (fun w => match w_outcome w with
                     | Emitted c => [c]
                     | _ => []
                     end) ws.

(** The windows [chunk_segments] goes through.  The loop gets one
    iteration per character of the text and one more to leave, which is
    enough for any chunker that [TextChunker_init] built. *)
Definition chunk_windows (self : TextChunker) (segments : list Segment)
    (src : option str) : result (list window) :=
  match segments with
  | [] => Ok []
  | _ :: _ =>
      let (raw, char_to_segment) := join_segments segments in
      let full_text := strip raw in
      chunk_loop self full_text char_to_segment src
                 (S (length full_text)) 0 0
  end.

(** [TextChunker.chunk_segments] *)
Definition chunk_segments (self : TextChunker) (segments : list Segment)
    (src : option str) : result (list Chunk) :=
  fmap chunks_of (chunk_windows self segments src).

(** [chunk_transcript] *)
Definition chunk_transcript (segments : list Segment)
    (target overlap : Z) (src : option str) : result (list Chunk) :=
  chunker <- TextChunker_init target overlap ;;
  chunk_segments chunker segments src.

End ChunkSegments.

Arguments Emitted {time}.
Arguments Skipped {time}.
Arguments EmptyStop {time}.
Arguments mkWindow {time}.
Arguments w_start {time}.
Arguments w_end {time}.
Arguments w_outcome {time}.
Arguments chunks_of {time}.
Arguments join_segments {time}.
Arguments sorted_by_id {time}.
Arguments insert_by_id {time}.

End Chunker.

Import Chunker.

(* ================================================================= *)
(** * normalize.py *)

Module Normalizer.

Definition FILLER_WORDS : list str :=
  map lit [ "um"; "uh"; "hmm"; "mhm"; "uh-huh"; "mm-hmm";
            "like"; "you know"; "i mean"; "sort of"; "kind of" ]%string.

(** ** The compiled patterns

    Every pattern the normalizer compiles has the shape
    [\b(t1|t2|...|tn)\b] with [re.IGNORECASE], the [ti] being escaped
    literals: a pattern is the list of its alternatives, and the
    functions below are the matcher of [re] for that shape. *)

Record Pattern : Type := mkPattern { alternatives : list str }.

(** [TextNormalizer._create_pattern]; joining no term at all with ['|']
    leaves one empty alternative. *)
Definition _create_pattern (terms : list str) : Pattern :=
  match terms with
  | [] => mkPattern [[]]
  | _ :: _ => mkPattern terms
  end.

Definition word_before (prev : option ascii) : bool :=
  match prev with
  | Some c => isword c
  | None => false
  end.

Definition word_here (s : str) : bool :=
  match s with
  | c :: _ => isword c
  | [] => false
  end.

(** [\b] between the character [prev] and the rest [s] of the text. *)
Definition at_boundary (prev : option ascii) (s : str) : bool :=
  xorb (word_before prev) (word_here s).

(** A literal under [IGNORECASE], against the front of [s]: the last
    character consumed and the rest of the text. *)
Fixpoint match_literal (t : str) (prev : option ascii) (s : str)
  : option (option ascii * str) :=
  match t, s with
  | [], _ => Some (prev, s)
  | p :: t', c :: s' =>
      if Ascii.eqb (lower_char p) (lower_char c)
      then match_literal t' (Some c) s'
      else None
  | _ :: _, [] => None
  end.

(** The group and the closing [\b]: alternatives are tried in order, and
    one whose closing [\b] fails is given up for the next.  With
    [must_advance] an empty match is refused. *)
Fixpoint match_alternatives (alts : list str) (prev : option ascii)
    (s : str) (must_advance : bool) : option nat :=
  match alts with
  | [] => None
  | t :: alts' =>
      match match_literal t prev s with
      | Some (prev', rest) =>
          if at_boundary prev' rest
             && negb (must_advance && (length t =? 0)%nat)
          then Some (length t)
          else match_alternatives alts' prev s must_advance
      | None => match_alternatives alts' prev s must_advance
      end
  end.

(** A match of the pattern that starts exactly here: its length. *)
Definition match_at (p : Pattern) (prev : option ascii) (s : str)
    (must_advance : bool) : option nat :=
  if at_boundary prev s
  then match_alternatives (alternatives p) prev s must_advance
  else None.

(** [Pattern.search]: offset and length of the leftmost match. *)
Fixpoint search_from (p : Pattern) (prev : option ascii) (s : str)
  : option (nat * nat) :=
  match match_at p prev s false with
  | Some n => Some (O, n)
  | None =>
      match s with
      | [] => None
      | c :: s' =>
          match search_from p (Some c) s' with
          | Some (b, n) => Some (S b, n)
          | None => None
          end
      end
  end.

Definition search (p : Pattern) (text : str) : option (nat * nat) :=
  search_from p None text.

Section Sub.

Variable p : Pattern.
Variable repl : str -> str.

(** What [sub] does at one position outside any match: the replacement
    text produced there and the number of characters matched.  After an
    empty match the next search starts at the same position and must
    advance. *)
Definition matches_here (prev : option ascii) (s : str) : str * nat :=
  match match_at p prev s false with
  | None => ([], O)
  | Some (S n) => (repl (firstn (S n) s), S n)
  | Some O =>
      match match_at p prev s true with
      | Some (S n) => (repl [] ++ repl (firstn (S n) s), S n)
      | _ => (repl [], O)
      end
  end.

(** The scan of [sub]; [skip] characters are still inside the match
    found last. *)
Fixpoint sub_scan (prev : option ascii) (s : str) (skip : nat) : str :=
  match skip with
  | S k =>
      match s with
      | [] => []
      | c :: s' => sub_scan (Some c) s' k
      end
  | O =>
      let (out, n) := matches_here prev s in
      out ++
      match s with
      | [] => []
      | c :: s' =>
          match n with
          | O => c :: sub_scan (Some c) s' O
          | S k => sub_scan (Some c) s' k
          end
      end
  end.

(** [Pattern.sub(repl, text)] *)
Definition sub (text : str) : str := sub_scan None text O.

End Sub.

(** [re.sub(r'\s+', ' ', text)]; [in_run] says that the character before
    was whitespace. *)
Fixpoint collapse_from (in_run : bool) (s : str) : str :=
  match s with
  | [] => []
  | c :: s' =>
      if isspace c
      then if in_run then collapse_from true s'
           else " "%char :: collapse_from true s'
      else c :: collapse_from false s'
  end.

Definition collapse_whitespace (text : str) : str :=
  collapse_from false text.

(** ** The normalizer *)

(** A glossary is a [dict]: its items in insertion order. *)
Definition Glossary := list (str * str).

Record TextNormalizer : Type := mkTextNormalizer {
  glossary : Glossary;
  remove_fillers : bool;
  glossary_pattern : Pattern;
  filler_pattern : option Pattern
}.

(** [sorted(..., key=len, reverse=True)]: stable, longest first. *)
Fixpoint insert_by_len (x : str) (l : list str) : list str :=
  match l with
  | [] => [x]
  | y :: l' =>
      if (length x <? length y)%nat then y :: insert_by_len x l'
      else x :: l
  end.

Fixpoint sorted_by_len (l : list str) : list str :=
  match l with
  | [] => []
  | x :: l' => insert_by_len x (sorted_by_len l')
  end.

(** [TextNormalizer.__init__]; [loaded] is what [_load_glossary]
    returned: the content of the glossary file, or the empty dict when
    the file is missing or cannot be read. *)
Definition TextNormalizer_init (loaded : Glossary) (fillers : bool)
  : TextNormalizer :=
  let glossary_terms := sorted_by_len (map fst loaded) in
  {| glossary := loaded;
     remove_fillers := fillers;
     glossary_pattern := _create_pattern glossary_terms;
     filler_pattern :=
       if fillers then Some (_create_pattern FILLER_WORDS) else None |}.

(** [replace_func] of [_apply_glossary] *)
Fixpoint replace_func (items : Glossary) (matched_text : str) : str :=
  match items with
  | [] => matched_text
  | (key, value) :: rest =>
      if str_eqb (lower key) (lower matched_text) then value
      else replace_func rest matched_text
  end.

Definition _apply_glossary (self : TextNormalizer) (text : str) : str :=
  sub (glossary_pattern self) (replace_func (glossary self)) text.

Definition _remove_fillers (pattern : Pattern) (text : str) : str :=
  sub pattern (fun _ => []) text.

(** [TextNormalizer.normalize] *)
Definition normalize (self : TextNormalizer) (text : str) : str :=
  match text with
  | [] => text
  | _ :: _ =>
      let text1 :=
        match glossary self with
        | [] => text
        | _ :: _ => _apply_glossary self text
        end in
      let text2 :=
        match remove_fillers self, filler_pattern self with
        | true, Some pattern => _remove_fillers pattern text1
        | _, _ => text1
        end in
      strip (collapse_whitespace text2)
  end.

End Normalizer.

Import Normalizer.

(* ================================================================= *)
(** * Vocabulary of the properties *)

Module Spec.
Section Spec.

Variable time : Type.

Local Abbreviation Segment := (Segment time).

(** The stripped, space-joined text that [chunk_segments] cuts up. *)
Definition full_text_of (segments : list Segment) : str :=
  strip (fst (join_segments segments)).

(** Some segment has a character that is not whitespace. *)
Definition has_content (segments : list Segment) : Prop :=
  exists seg c, In seg segments /\ In c (seg_text seg) /\ isspace c = false.

(** The segment whose id is [i]. *)
Definition segment_with_id (segments : list Segment) (i : Z)
  : option Segment :=
  find (fun seg => seg_id seg =? i) segments.

End Spec.

Arguments segment_with_id {time}.
Arguments full_text_of {time}.
Arguments has_content {time}.

(** ** The normalizer *)

(** The glossary pass is run and its pattern matches somewhere in
    [text]. *)
Definition has_glossary_term (self : TextNormalizer) (text : str) : bool :=
  match glossary self with
  | [] => false
  | _ :: _ =>
      match search (glossary_pattern self) text with
      | Some _ => true
      | None => false
      end
  end.

(** The filler pass is run and its pattern matches somewhere in
    [text]. *)
Definition has_filler (self : TextNormalizer) (text : str) : bool :=
  match remove_fillers self, filler_pattern self with
  | true, Some pattern =>
      match search pattern text with
      | Some _ => true
      | None => false
      end
  | _, _ => false
  end.

(** Whitespace occurs only as single spaces; [after_space] says that the
    character before was one. *)
Fixpoint single_spaced (after_space : bool) (s : str) : Prop :=
  match s with
  | [] => True
  | c :: s' =>
      if isspace c
      then c = " "%char /\ after_space = false /\ single_spaced true s'
      else single_spaced false s'
  end.

(** The character before the rest of the text once [consumed] was
    matched after [prev]. *)
Definition char_before (prev : option ascii) (consumed : str)
  : option ascii :=
  match consumed with
  | [] => prev
  | c :: m => Some (last m c)
  end.

Definition longer_or_equal (a b : str) : Prop :=
  (length b <= length a)%nat.

End Spec.

Import Spec.

(* ================================================================= *)
(** * Sample inputs

    Timestamps are written in whole seconds. *)

Module Samples.

(** [create_test_segments] of tests/test_chunk.py *)
Definition test_segments : list (Segment Z) :=
  [ mkSegment 0 0 5 (lit "This is the first segment.");
    mkSegment 1 5 10 (lit "This is the second segment.");
    mkSegment 2 10 15 (lit "This is the third segment.");
    mkSegment 3 15 20 (lit "This is the fourth segment.");
    mkSegment 4 20 25 (lit "This is the fifth segment.") ].

(** A segment the recognizer left without text. *)
Definition silent_segments : list (Segment Z) :=
  [ mkSegment 0 0 1 (lit "") ].

(** The chunker of the tests, [TextChunker(target_chars=50,
    overlap_chars=10)]. *)
Definition test_chunker : TextChunker := mkTextChunker 50 10 40.

(** The glossary of the normalization scenario. *)
Definition test_glossary : Glossary :=
  [ (lit "tc pcm", lit "TcPCM"); (lit "tcpcm", lit "TcPCM") ].

End Samples.

(* ================================================================= *)
(** * asr.py and the normalization loop of its callers

    The recognizer is outside the repository: what it yields is an
    argument.  The timestamps stay in [time]; the [0.0] that
    [transcribe] uses for an empty recording is the parameter [zero]. *)

Module Asr.
Section Asr.

Variable time : Type.
Variable zero : time.

Local Abbreviation Segment := (Segment time).

(** The fields [transcribe] reads from a segment of faster-whisper. *)
Record WhisperSegment : Type := mkWhisperSegment {
  whisper_start : time;
  whisper_end : time;
  whisper_text : str
}.

(** [Transcript] of schemas.py *)
Record Transcript : Type := mkTranscript {
  segments : list Segment;
  language : option str;
  duration : option time
}.

(** The [for i, segment in enumerate(segments_iter)] loop: the index
    [enumerate] has reached, the segments appended so far, and the calls
    made to [progress_callback] so far. *)
Definition transcribe_step
    (state : Z * list Segment * list (time * Z))
    (segment : WhisperSegment) : Z * list Segment * list (time * Z) :=
  let '(i, segments, calls) := state in
  let seg := mkSegment i (whisper_start segment) (whisper_end segment)
                       (strip (whisper_text segment)) in
  let segments' := segments ++ [seg] in
  (i + 1, segments', calls ++ [(seg_end seg, len segments')]).

Definition transcribe_loop (yielded : list WhisperSegment)
  : Z * list Segment * list (time * Z) :=
  fold_left transcribe_step yielded (0, [], []).

(** [ASREngine.transcribe], given what the model yields and the language
    it reports: the transcript, and the calls to [progress_callback]
    when one is passed. *)
Definition transcribe (yielded : list WhisperSegment)
    (info_language : option str) : Transcript * list (time * Z) :=
  let '(_, segments, calls) := transcribe_loop yielded in
  let duration :=
    match segments with
    | [] => zero
    | first :: _ => seg_end (last segments first)
    end in
  (mkTranscript segments info_language (Some duration), calls).

(** [for seg in transcript.segments: seg.text = normalizer.normalize(seg.text)]
    of cli.py, example.py and the integration test. *)
Definition normalize_segments (normalizer : TextNormalizer)
    (segs : list Segment) : list Segment :=
  map (fun seg =>
         mkSegment (seg_id seg) (seg_start seg) (seg_end seg)
                   (normalize normalizer (seg_text seg)))
      segs.

End Asr.

Arguments mkWhisperSegment {time}.
Arguments whisper_start {time}.
Arguments whisper_end {time}.
Arguments whisper_text {time}.
Arguments mkTranscript {time}.
Arguments segments {time}.
Arguments language {time}.
Arguments duration {time}.
Arguments transcribe_step {time}.
Arguments transcribe_loop {time}.
Arguments transcribe {time}.
Arguments normalize_segments {time}.

End Asr.

Import Asr.

(* ================================================================= *)
(** * export.py

    The exporters write files: a call is modelled by the list of its
    effects on the file system, in order.  Three things are arguments:
    the two timestamp formatters, whose float arithmetic is not
    modelled; the JSON text of a transcript and of a chunk; and the
    string of the path [Path(output_dir) / name]. *)

Module Exporters.

(** ["sep".join(parts)] *)
Fixpoint join (sep : str) (parts : list str) : str :=
  match parts with
  | [] => []
  | p :: rest =>
      match rest with
      | [] => p
      | _ :: _ => p ++ sep ++ join sep rest
      end
  end.

(** [str(i)] *)
Definition str_of_int (i : Z) : str :=
  lit (DecimalString.NilZero.string_of_int (Z.to_int i)).

Inductive effect : Type :=
| Mkdir (path : str)
| WriteFile (path content : str).

(** [x in s] for a set of strings *)
Definition mem (x : str) (s : list str) : bool := existsb (str_eqb x) s.

Section Writers.

Variable time : Type.
Variable format_timestamp_srt : time -> str.
Variable format_timestamp_vtt : time -> str.
Variable dump_transcript : Transcript time -> str.
Variable dumps_chunk : Chunk time -> str.
Variable path_join : str -> str -> str.

Local Abbreviation Segment := (Segment time).
Local Abbreviation Chunk := (Chunk time).
Local Abbreviation Transcript := (Transcript time).

(** The lines [export_srt] collects, [i] being the number of the next
    entry. *)
Fixpoint srt_lines (i : Z) (segs : list Segment) : list str :=
  match segs with
  | [] => []
  | seg :: rest =>
      [ str_of_int i;
        format_timestamp_srt (seg_start seg) ++ lit " --> "
          ++ format_timestamp_srt (seg_end seg);
        seg_text seg;
        [] ]
      ++ srt_lines (i + 1) rest
  end.

Definition srt_content (segs : list Segment) : str :=
  join (lit (String "010" "")) (srt_lines 1 segs).

Definition export_srt (segs : list Segment) (output_path : str)
  : list effect :=
  [WriteFile output_path (srt_content segs)].

Fixpoint vtt_entries (segs : list Segment) : list str :=
  match segs with
  | [] => []
  | seg :: rest =>
      [ format_timestamp_vtt (seg_start seg) ++ lit " --> "
          ++ format_timestamp_vtt (seg_end seg);
        seg_text seg;
        [] ]
      ++ vtt_entries rest
  end.

Definition vtt_content (segs : list Segment) : str :=
  join (lit (String "010" "")) ([lit "WEBVTT"; []] ++ vtt_entries segs).

Definition export_vtt (segs : list Segment) (output_path : str)
  : list effect :=
  [WriteFile output_path (vtt_content segs)].

Definition export_json (transcript : Transcript) (output_path : str)
  : list effect :=
  [WriteFile output_path (dump_transcript transcript)].

Definition jsonl_content (chunks : list Chunk) : str :=
  concat (map (fun chunk => dumps_chunk chunk ++ lit (String "010" ""))
              chunks).

Definition export_jsonl (chunks : list Chunk) (output_path : str)
  : list effect :=
  [WriteFile output_path (jsonl_content chunks)].

(** [export_all]: the dict it returns, as its items in insertion order,
    and its effects. *)
Definition export_all (transcript : Transcript) (chunks : list Chunk)
    (output_dir base_name : str) : list (str * str) * list effect :=
  let srt_path := path_join output_dir (base_name ++ lit ".srt") in
  let vtt_path := path_join output_dir (base_name ++ lit ".vtt") in
  let json_path := path_join output_dir (base_name ++ lit ".json") in
  let jsonl_path :=
    path_join output_dir (base_name ++ lit "_chunks.jsonl") in
  ([ (lit "srt", srt_path); (lit "vtt", vtt_path);
     (lit "json", json_path); (lit "jsonl", jsonl_path) ],
   [Mkdir output_dir]
   ++ export_srt (segments transcript) srt_path
   ++ export_vtt (segments transcript) vtt_path
   ++ export_json transcript json_path
   ++ export_jsonl chunks jsonl_path).

(** [export_formats] *)
Definition export_formats (transcript : Transcript) (chunks : list Chunk)
    (output_dir base_name : str) (formats : list str)
  : list (str * str) * list effect :=
  let fmt_set := map lower formats in
  let srt_path := path_join output_dir (base_name ++ lit ".srt") in
  let vtt_path := path_join output_dir (base_name ++ lit ".vtt") in
  let json_path := path_join output_dir (base_name ++ lit ".json") in
  let jsonl_path :=
    path_join output_dir (base_name ++ lit "_chunks.jsonl") in
  let step1 : list (str * str) * list effect :=
    if mem (lit "srt") fmt_set
    then ([(lit "srt", srt_path)],
          export_srt (segments transcript) srt_path)
    else ([], []) in
  let step2 : list (str * str) * list effect :=
    if mem (lit "vtt") fmt_set
    then (fst step1 ++ [(lit "vtt", vtt_path)],
          snd step1 ++ export_vtt (segments transcript) vtt_path)
    else step1 in
  let step3 : list (str * str) * list effect :=
    if mem (lit "json") fmt_set
    then (fst step2 ++ [(lit "json", json_path)],
          snd step2 ++ export_json transcript json_path)
    else step2 in
  let step4 : list (str * str) * list effect :=
    if mem (lit "jsonl") fmt_set
    then (fst step3 ++ [(lit "jsonl", jsonl_path)],
          snd step3 ++ export_jsonl chunks jsonl_path)
    else step3 in
  (fst step4, Mkdir output_dir :: snd step4).

End Writers.

End Exporters.

Import Exporters.

(* ================================================================= *)
(** * cli.py: the output name and the choice of formats *)

Module Cli.

Definition isdigit (c : ascii) : bool :=
  let n := N_of_ascii c in ((48 <=? n) && (n <=? 57))%N.

Fixpoint take_digits (s : str) : str :=
  match s with
  | [] => []
  | c :: s' => if isdigit c then c :: take_digits s' else []
  end.

(** [ch\s*(\d+)] with [re.IGNORECASE] at the front of [s]: group 1.
    Both repetitions are greedy, and no character is whitespace and a
    digit at once, so giving back whitespace never helps. *)
Definition match_chapter (s : str) : option str :=
  match s with
  | c :: h :: rest =>
      if Ascii.eqb (lower_char c) "c" && Ascii.eqb (lower_char h) "h"
      then match take_digits (lstrip rest) with
           | [] => None
           | d :: ds => Some (d :: ds)
           end
      else None
  | _ => None
  end.

(** [re.search(r'ch\s*(\d+)', s, re.IGNORECASE)]: group 1 of the
    leftmost match. *)
Fixpoint search_chapter (s : str) : option str :=
  match match_chapter s with
  | Some digits => Some digits
  | None =>
      match s with
      | [] => None
      | _ :: s' => search_chapter s'
      end
  end.

(** [s.zfill(width)] *)
Definition zfill (width : nat) (s : str) : str :=
  let pad := repeat "0"%char (width - length s) in
  match s with
  | c :: rest =>
      if Ascii.eqb c "+" || Ascii.eqb c "-" then c :: pad ++ rest
      else pad ++ s
  | [] => pad
  end.

(** [s.replace(" ", "_")] *)
Definition replace_spaces (s : str) : str :=
  map (fun c => if Ascii.eqb c " " then "_"%char else c) s.

(** The base name of the output files, from the stem of the input file
    (lines 170-177 of [transcribe]). *)
Definition safe_stem (input_stem : str) : str :=
  let safe := lit "tcpcm_" ++ replace_spaces (lower input_stem) in
  match search_chapter input_stem with
  | Some digits => lit "tcpcm_ch" ++ zfill 2 digits
  | None => safe
  end.

Section Select.

Variable time : Type.
Variable format_timestamp_srt : time -> str.
Variable format_timestamp_vtt : time -> str.
Variable dump_transcript : Transcript time -> str.
Variable dumps_chunk : Chunk time -> str.
Variable path_join : str -> str -> str.

(** The export step of [transcribe] (lines 180-184); [formats] is the
    value of the repeated [--format] option. *)
Definition export_selected (transcript : Transcript time)
    (chunks : list (Chunk time)) (output_dir stem : str)
    (formats : option (list str)) : list (str * str) * list effect :=
  let selected :=
    map lower (match formats with Some fs => fs | None => [] end) in
  match selected with
  | [] =>
      export_all time format_timestamp_srt format_timestamp_vtt
        dump_transcript dumps_chunk path_join transcript chunks
        output_dir stem
  | _ :: _ =>
      if mem (lit "all") selected
      then export_all time format_timestamp_srt format_timestamp_vtt
             dump_transcript dumps_chunk path_join transcript chunks
             output_dir stem
      else export_formats time format_timestamp_srt format_timestamp_vtt
             dump_transcript dumps_chunk path_join transcript chunks
             output_dir stem selected
  end.

End Select.

End Cli.

Import Cli.

(* ================================================================= *)
(** * Further vocabulary and sample inputs *)

Module Vocabulary.

(** The newline. *)
Definition nl : str := lit (String "010" "").

(** The formats [export_formats] knows, in the order in which it looks
    for them. *)
Definition known_formats : list str :=
  [lit "srt"; lit "vtt"; lit "json"; lit "jsonl"].

(** The name of the file of a format. *)
Definition file_name (base_name format : str) : str :=
  if str_eqb format (lit "jsonl") then base_name ++ lit "_chunks.jsonl"
  else base_name ++ lit "." ++ format.

Section Files.

Variable time : Type.
Variable format_timestamp_srt : time -> str.
Variable format_timestamp_vtt : time -> str.
Variable dump_transcript : Transcript time -> str.
Variable dumps_chunk : Chunk time -> str.

(** What the file of a format contains. *)
Definition file_content (transcript : Transcript time)
    (chunks : list (Chunk time)) (format : str) : str :=
  if str_eqb format (lit "srt")
  then srt_content time format_timestamp_srt (segments transcript)
  else if str_eqb format (lit "vtt")
  then vtt_content time format_timestamp_vtt (segments transcript)
  else if str_eqb format (lit "json") then dump_transcript transcript
  else jsonl_content time dumps_chunk chunks.

(** One entry of an SRT file and of a VTT file, with the blank line
    that follows it. *)
Definition srt_block (entry : Z * Segment time) : str :=
  str_of_int (fst entry) ++ nl
  ++ format_timestamp_srt (seg_start (snd entry)) ++ lit " --> "
  ++ format_timestamp_srt (seg_end (snd entry)) ++ nl
  ++ seg_text (snd entry) ++ nl ++ nl.

Definition vtt_block (seg : Segment time) : str :=
  format_timestamp_vtt (seg_start seg) ++ lit " --> "
  ++ format_timestamp_vtt (seg_end seg) ++ nl
  ++ seg_text seg ++ nl ++ nl.

End Files.

(** [enumerate(l, start)] *)
Definition enumerate {A : Type} (start : Z) (l : list A) : list (Z * A) :=
  combine (range start (start + len l)) l.

(** What the recognizer yields in the samples. *)
Definition heard : list (WhisperSegment Z) :=
  [ mkWhisperSegment 0 5 (lit " Welcome to tc pcm training.");
    mkWhisperSegment 5 10 (lit " This covers tool costing basics.");
    mkWhisperSegment 10 15 (lit " Um, we will learn about tcpcm.") ].

(** Stand-ins for the JSON texts and for the path in the samples. *)
Definition sample_dump_transcript (t : Transcript Z) : str := lit "{}".

Definition sample_dumps_chunk (c : Chunk Z) : str := lit "{}".

Definition sample_path_join (dir name : str) : str :=
  dir ++ lit "/" ++ name.

(** Formats as a user may type them. *)
Definition mixed_formats : list str :=
  map lit ["SRT"; "vtt"; "Json"; "jsonl"; "pdf"]%string.

Definition heard_transcript : Transcript Z :=
  fst (transcribe 0 heard (Some (lit "en"))).

(** Timestamps of the samples printed as whole seconds. *)
Definition show_seconds (t : Z) : str := str_of_int t.

End Vocabulary.

Import Vocabulary.

(* ================================================================= *)
(** * Facts about the Python primitives *)

Module PyFacts.

Lemma len_nonneg {A : Type} (l : list A) : 0 <= len l.
Proof. unfold len. lia. Qed.

Lemma len_nil_iff {A : Type} (l : list A) : len l = 0 <-> l = [].
Proof.
  unfold len. destruct l; simpl; split; intros H; try reflexivity;
    try discriminate; lia.
Qed.

Lemma slice_from_zero {A : Type} (l : list A) (hi : Z) :
  0 <= hi -> slice l 0 hi = firstn (Z.to_nat hi) l.
Proof.
  intros Hhi. unfold slice, clamp_index, len.
  replace (0 <? 0) with false by reflexivity.
  destruct (hi <? 0) eqn:E; [apply Z.ltb_lt in E; lia|].
  rewrite (Z.min_l 0) by lia. simpl skipn. rewrite Z.sub_0_r.
  destruct (Z.le_ge_cases hi (Z.of_nat (length l))) as [H|H].
  - rewrite Z.min_l by lia. reflexivity.
  - rewrite Z.min_r by lia. rewrite Nat2Z.id.
    rewrite firstn_all. symmetry. apply firstn_all2. lia.
Qed.

Lemma range_nil_iff (lo hi : Z) : range lo hi = [] <-> hi <= lo.
Proof.
  unfold range. split.
  - intros H. apply map_eq_nil in H.
    destruct (Z.to_nat (hi - lo)) eqn:E; [lia | discriminate].
  - intros H. replace (Z.to_nat (hi - lo)) with O by lia. reflexivity.
Qed.

Lemma range_cons (lo hi : Z) :
  lo < hi -> exists rest, range lo hi = lo :: rest.
Proof.
  intros H. unfold range.
  destruct (Z.to_nat (hi - lo)) eqn:E; [lia|].
  simpl. rewrite Z.add_0_r. eexists. reflexivity.
Qed.

Lemma getitem_nonneg {A : Type} (l : list A) (i : Z) :
  0 <= i < len l -> exists a, getitem l i = Ok a.
Proof.
  intros [H0 H1]. unfold getitem, len in *.
  destruct (i <? 0) eqn:E; [apply Z.ltb_lt in E; lia|].
  rewrite E.
  destruct (nth_error l (Z.to_nat i)) eqn:En; [eauto|].
  apply nth_error_None in En. lia.
Qed.

Lemma last_cons_default {A : Type} (m : list A) :
  forall x d, last (x :: m) d = last m x.
Proof.
  induction m as [|y m IH]; intros x d; [reflexivity|].
  change (last (x :: y :: m) d) with (last (y :: m) d).
  rewrite (IH y d), (IH y x). reflexivity.
Qed.

(** ** Stripping *)

Lemma lstrip_nil_iff (s : str) :
  lstrip s = [] <-> forallb isspace s = true.
Proof.
  induction s as [|c s IH]; simpl; [tauto|].
  destruct (isspace c); simpl; [exact IH|].
  split; discriminate.
Qed.

Lemma lstrip_head (s : str) (c : ascii) (r : str) :
  lstrip s = c :: r -> isspace c = false.
Proof.
  induction s as [|a s IH]; simpl; [discriminate|].
  destruct (isspace a) eqn:E; [exact IH|].
  intros H. inversion H; subst. exact E.
Qed.

Lemma lstrip_keeps (c : ascii) (s : str) :
  isspace c = false -> lstrip (c :: s) = c :: s.
Proof. intros H. simpl. rewrite H. reflexivity. Qed.

Lemma lstrip_app_keeps (s : str) (c : ascii) (t : str) :
  isspace c = false -> exists r, lstrip (s ++ c :: t) = r ++ c :: t.
Proof.
  intros Hc. induction s as [|a s IH]; simpl.
  - rewrite Hc. exists []. reflexivity.
  - destruct (isspace a); [exact IH|].
    exists (a :: s). reflexivity.
Qed.

Lemma rstrip_cons_keeps (c : ascii) (s : str) :
  isspace c = false -> exists r, rstrip (c :: s) = c :: r.
Proof.
  intros Hc. unfold rstrip. simpl rev.
  destruct (lstrip_app_keeps (rev s) c [] Hc) as [r Hr].
  rewrite Hr. rewrite rev_app_distr. simpl. eauto.
Qed.

Lemma strip_cons_keeps (c : ascii) (s : str) :
  isspace c = false -> exists r, strip (c :: s) = c :: r.
Proof.
  intros Hc. unfold strip. rewrite lstrip_keeps by exact Hc.
  apply rstrip_cons_keeps. exact Hc.
Qed.

Lemma rstrip_head (s : str) (c : ascii) (r : str) :
  rstrip s = c :: r -> exists t, s = c :: t.
Proof.
  unfold rstrip. intros H.
  assert (Hs : forall u, exists v, rev u = v ++ lstrip (rev u)).
  { clear. intros u. induction (rev u) as [|a w IH]; simpl.
    - exists []. reflexivity.
    - destruct (isspace a).
      + destruct IH as [v Hv]. exists (a :: v). simpl. f_equal. exact Hv.
      + exists []. reflexivity. }
  destruct (Hs s) as [v Hv].
  apply (f_equal (@rev ascii)) in Hv.
  rewrite rev_involutive, rev_app_distr, H in Hv.
  simpl in Hv. eauto.
Qed.

Lemma strip_head (s : str) (c : ascii) (r : str) :
  strip s = c :: r -> isspace c = false.
Proof.
  unfold strip. intros H.
  destruct (rstrip_head _ _ _ H) as [t Ht].
  eapply lstrip_head; eauto.
Qed.

Lemma strip_all_space (s : str) :
  forallb isspace s = true -> strip s = [].
Proof.
  intros H. unfold strip. apply lstrip_nil_iff in H. rewrite H. reflexivity.
Qed.

Lemma strip_has_content (s : str) (c : ascii) :
  In c s -> isspace c = false -> strip s <> [].
Proof.
  intros Hin Hc. apply in_split in Hin. destruct Hin as [a [b ->]].
  unfold strip.
  destruct (lstrip_app_keeps a c b Hc) as [r Hr]. rewrite Hr.
  unfold rstrip. rewrite rev_app_distr. simpl rev. rewrite <- app_assoc.
  simpl app.
  destruct (lstrip_app_keeps (rev b) c (rev r) Hc) as [r' Hr'].
  rewrite Hr'. intros H. apply (f_equal (@length ascii)) in H.
  rewrite length_rev, length_app in H. simpl in H. lia.
Qed.

Lemma lstrip_length_le (s : str) : (length (lstrip s) <= length s)%nat.
Proof.
  induction s as [|c s IH]; simpl; [lia|].
  destruct (isspace c); simpl; lia.
Qed.

Lemma strip_length_le (s : str) : len (strip s) <= len s.
Proof.
  unfold strip, rstrip, len. rewrite length_rev.
  pose proof (lstrip_length_le (rev (lstrip s))) as H1.
  rewrite length_rev in H1.
  pose proof (lstrip_length_le s). lia.
Qed.

End PyFacts.

Import PyFacts.

(* ================================================================= *)
(** * Facts about the chunker's helpers *)

Module ChunkLemmas.
Section ChunkLemmas.

Variable time : Type.
Variable time_eq_dec : forall a b : time, {a = b} + {a <> b}.

Local Abbreviation Segment := (Segment time).
Local Abbreviation Chunk := (Chunk time).
Local Abbreviation window := (window time).

(** ** Joining the segments *)

Lemma join_segments_flat (segments : list Segment) :
  join_segments segments =
  (flat_map (fun seg => seg_text seg ++ [" "%char]) segments,
   flat_map (fun seg => repeat seg (length (seg_text seg ++ [" "%char])))
            segments).
Proof.
  unfold join_segments.
  assert (H : forall segs a b,
    fold_left
      (fun (acc : str * list Segment) seg =>
         let (full_text, char_to_segment) := acc in
         let piece := seg_text seg ++ [" "%char] in
         (full_text ++ piece, char_to_segment ++ repeat seg (length piece)))
      segs (a, b) =
    (a ++ flat_map (fun seg => seg_text seg ++ [" "%char]) segs,
     b ++ flat_map
            (fun seg => repeat seg (length (seg_text seg ++ [" "%char])))
            segs)).
  { induction segs as [|s segs IH]; intros a b; simpl.
    - rewrite !app_nil_r. reflexivity.
    - rewrite IH. rewrite <- !app_assoc. reflexivity. }
  apply (H segments [] []).
Qed.

Lemma char_to_segment_nonempty (segments : list Segment) :
  segments <> [] -> 0 < len (snd (join_segments segments)).
Proof.
  rewrite join_segments_flat. simpl.
  destruct segments as [|s segs]; [congruence|]. intros _.
  unfold len. simpl. rewrite !length_app, repeat_length. simpl. lia.
Qed.

Lemma has_content_full_text (segments : list Segment) :
  has_content segments -> full_text_of segments <> [].
Proof.
  intros [seg [c [Hseg [Hc Hsp]]]]. unfold full_text_of.
  rewrite join_segments_flat. simpl.
  apply strip_has_content with (c := c); [|exact Hsp].
  apply in_flat_map. exists seg. split; [exact Hseg|].
  apply in_or_app. left. exact Hc.
Qed.

Lemma no_content_full_text (segments : list Segment) :
  ~ has_content segments -> full_text_of segments = [].
Proof.
  intros Hno. unfold full_text_of. rewrite join_segments_flat. simpl.
  apply strip_all_space. apply forallb_forall. intros c Hc.
  apply in_flat_map in Hc. destruct Hc as [seg [Hseg Hc]].
  apply in_app_or in Hc. destruct Hc as [Hc|[<-|[]]]; [|reflexivity].
  destruct (isspace c) eqn:E; [reflexivity|].
  exfalso. apply Hno. exists seg, c. auto.
Qed.

(** The first window of a text with content has text left after
    trimming. *)
Lemma first_window_text (segments : list Segment) (e : Z) :
  has_content segments -> 0 < e ->
  strip (slice (full_text_of segments) 0 e) <> [].
Proof.
  intros Hcontent He.
  pose proof (has_content_full_text _ Hcontent) as Hft.
  destruct (full_text_of segments) as [|c0 t0] eqn:Eft; [congruence|].
  assert (Hc0 : isspace c0 = false).
  { unfold full_text_of in Eft. eapply strip_head; eauto. }
  rewrite slice_from_zero by lia.
  destruct (Z.to_nat e) as [|k] eqn:Ek; [lia|].
  simpl firstn.
  destruct (strip_cons_keeps c0 (firstn k t0) Hc0) as [r ->].
  discriminate.
Qed.

(** ** Filling the set *)

Section AddSegments.

Variable char_to_segment : list Segment.

Local Abbreviation add := (add_segments time time_eq_dec char_to_segment).

(** The loop returns only when it added nothing. *)
Lemma add_segments_returns_acc (indices : list Z) :
  forall acc members, add indices acc = Ok members -> members = acc.
Proof.
  induction indices as [|i rest IH]; intros acc members H; simpl in H.
  - inversion H. reflexivity.
  - destruct (i <? len char_to_segment).
    + destruct (getitem char_to_segment i); simpl in H; discriminate.
    + apply IH. exact H.
Qed.

(** It raises at the first index that has a segment. *)
Lemma add_segments_raises (i : Z) (rest : list Z) (acc : list Segment) :
  0 <= i < len char_to_segment ->
  add (i :: rest) acc = Raise (TypeError "unhashable type: 'Segment'").
Proof.
  intros Hi. simpl.
  destruct (i <? len char_to_segment) eqn:E;
    [|apply Z.ltb_ge in E; lia].
  destruct (getitem_nonneg char_to_segment i Hi) as [seg ->].
  reflexivity.
Qed.

End AddSegments.

(** ** The loop *)

Section Loop.

Variable self : TextChunker.
Variable full_text : str.
Variable char_to_segment : list Segment.
Variable src : option str.

Local Abbreviation loop :=
  (chunk_loop time time_eq_dec self full_text char_to_segment src).

(** No window of a loop that returns gave a chunk. *)
Lemma chunk_loop_no_chunk (fuel : nat) :
  forall start next_id ws,
    loop fuel start next_id = Ok ws -> chunks_of ws = [].
Proof.
  induction fuel as [|fuel IH]; intros start next_id ws H;
    [discriminate|].
  cbn [chunk_loop] in H.
  destruct (start <? len full_text); [|inversion H; reflexivity].
  destruct (strip (slice full_text start
                     (Z.min (start + target_chars self) (len full_text))))
    as [|c t]; [inversion H; reflexivity|].
  destruct (add_segments time time_eq_dec char_to_segment
              (range start
                 (Z.min (Z.min (start + target_chars self) (len full_text))
                        (len char_to_segment))) [])
    as [members| |] eqn:Hadd; simpl in H; try discriminate.
  apply add_segments_returns_acc in Hadd. subst members. simpl in H.
  destruct (Z.min (start + target_chars self) (len full_text)
            >=? len full_text).
  - inversion H. reflexivity.
  - destruct (loop fuel (start + stride self) next_id) as [ws'| |] eqn:Hrec;
      simpl in H; try discriminate.
    inversion H. unfold chunks_of. simpl.
    apply (IH _ _ _ Hrec).
Qed.

(** A window with text whose first offset has a segment: the loop
    raises there. *)
Lemma chunk_loop_raises (fuel : nat) (start next_id : Z) :
  0 <= start < len full_text ->
  start < len char_to_segment ->
  1 <= target_chars self ->
  strip (slice full_text start
           (Z.min (start + target_chars self) (len full_text))) <> [] ->
  loop (S fuel) start next_id =
  Raise (TypeError "unhashable type: 'Segment'").
Proof.
  intros Hstart Hcts Htarget Htext. cbn [chunk_loop].
  destruct (start <? len full_text) eqn:E;
    [|apply Z.ltb_ge in E; lia].
  destruct (strip (slice full_text start
                     (Z.min (start + target_chars self) (len full_text))))
    as [|c t]; [congruence|].
  destruct (range_cons start
              (Z.min (Z.min (start + target_chars self) (len full_text))
                     (len char_to_segment)))
    as [more ->]; [lia|].
  rewrite add_segments_raises by lia. reflexivity.
Qed.

(** With [target_chars <= 0] no window reaches the set, and the loop
    returns. *)
Lemma chunk_loop_nonpositive (fuel : nat) :
  target_chars self <= 0 -> 1 <= stride self ->
  forall start next_id,
    0 <= start -> (Z.to_nat (len full_text - start) < fuel)%nat ->
    exists ws, loop fuel start next_id = Ok ws.
Proof.
  intros Htarget Hstride.
  induction fuel as [|fuel IH]; intros start next_id Hstart Hfuel; [lia|].
  cbn [chunk_loop].
  destruct (start <? len full_text) eqn:E; [|eauto].
  apply Z.ltb_lt in E.
  destruct (strip (slice full_text start
                     (Z.min (start + target_chars self) (len full_text))))
    as [|c t]; [eauto|].
  assert (Hrange :
            range start
              (Z.min (Z.min (start + target_chars self) (len full_text))
                     (len char_to_segment)) = [])
    by (apply range_nil_iff; lia).
  rewrite Hrange. cbn [add_segments bind sorted_by_id].
  destruct (Z.min (start + target_chars self) (len full_text)
            >=? len full_text); [eauto|].
  destruct (IH (start + stride self) next_id) as [ws Hws]; [lia|lia|].
  rewrite Hws. simpl. eauto.
Qed.

End Loop.

End ChunkLemmas.
End ChunkLemmas.

Import ChunkLemmas.

(* ================================================================= *)
(** * Properties of the chunker *)

Module ChunkTheorems.
Section ChunkTheorems.

Variable time : Type.
Variable time_eq_dec : forall a b : time, {a = b} + {a <> b}.

Local Abbreviation Segment := (Segment time).
Local Abbreviation Chunk := (Chunk time).
Local Abbreviation window := (window time).
Local Abbreviation chunk_segments := (chunk_segments time time_eq_dec).
Local Abbreviation chunk_windows := (chunk_windows time time_eq_dec).
Local Abbreviation chunk_transcript := (chunk_transcript time time_eq_dec).

Lemma TextChunker_init_ok (target overlap : Z) (self : TextChunker) :
  TextChunker_init target overlap = Ok self ->
  overlap < target /\
  target_chars self = target /\
  overlap_chars self = overlap /\
  stride self = target - overlap.
Proof.
  unfold TextChunker_init. destruct (overlap >=? target) eqn:E;
    [discriminate|].
  intros H. inversion H; subst; simpl.
  rewrite Z.geb_leb in E. apply Z.leb_gt in E. auto.
Qed.

Lemma chunk_windows_loop (self : TextChunker) (segments : list Segment)
    (src : option str) :
  segments <> [] ->
  chunk_windows self segments src =
  chunk_loop time time_eq_dec self (full_text_of segments)
    (snd (join_segments segments)) src
    (S (length (full_text_of segments))) 0 0.
Proof.
  intros Hne. unfold Chunker.chunk_windows, full_text_of.
  destruct segments as [|s segs]; [congruence|].
  destruct (join_segments (s :: segs)) as [raw cts]. reflexivity.
Qed.

(** A call that returns, returns no chunk: a chunk is emitted only for
    a window whose set has a member, and the set never gets one. *)
Lemma chunk_segments_no_chunk (self : TextChunker)
    (segments : list Segment) (src : option str) (chunks : list Chunk) :
  chunk_segments self segments src = Ok chunks -> chunks = [].
Proof.
  unfold Chunker.chunk_segments, fmap. intros H.
  destruct (chunk_windows self segments src) as [ws| |] eqn:Hws;
    simpl in H; try discriminate.
  inversion H; subst chunks.
  destruct segments as [|s segs].
  - simpl in Hws. inversion Hws. reflexivity.
  - rewrite chunk_windows_loop in Hws by discriminate.
    eapply chunk_loop_no_chunk. exact Hws.
Qed.

(** Segments with content under a window of at least one character:
    the first window raises. *)
Lemma chunk_windows_raise (self : TextChunker) (segments : list Segment)
    (src : option str) :
  1 <= target_chars self -> has_content segments ->
  chunk_windows self segments src =
  Raise (TypeError "unhashable type: 'Segment'").
Proof.
  intros Htarget Hcontent.
  assert (Hne : segments <> []).
  { destruct Hcontent as [seg [_ [Hin _]]]. intros ->. contradiction. }
  pose proof (has_content_full_text _ _ Hcontent) as Hft.
  pose proof (char_to_segment_nonempty _ _ Hne) as Hcts.
  assert (Hlen : 0 < len (full_text_of segments)).
  { pose proof (len_nonneg (full_text_of segments)) as H0.
    destruct (Z.eq_dec (len (full_text_of segments)) 0) as [E|E]; [|lia].
    apply len_nil_iff in E. congruence. }
  rewrite chunk_windows_loop by exact Hne.
  apply chunk_loop_raises; try lia.
  apply first_window_text; [exact Hcontent|lia].
Qed.

Lemma chunk_segments_raise (self : TextChunker) (segments : list Segment)
    (src : option str) :
  1 <= target_chars self -> has_content segments ->
  chunk_segments self segments src =
  Raise (TypeError "unhashable type: 'Segment'").
Proof.
  intros Htarget Hcontent. unfold Chunker.chunk_segments, fmap.
  rewrite chunk_windows_raise by assumption. reflexivity.
Qed.

(** Segments without content: the text is empty and the loop is not
    entered. *)
Lemma chunk_segments_blank (self : TextChunker) (segments : list Segment)
    (src : option str) :
  ~ has_content segments -> chunk_segments self segments src = Ok [].
Proof.
  intros Hno. unfold Chunker.chunk_segments, fmap.
  destruct segments as [|s segs] eqn:E; [reflexivity|].
  rewrite chunk_windows_loop by discriminate.
  rewrite (no_content_full_text _ _ Hno). reflexivity.
Qed.

(** A chunker that was constructed with [target_chars <= 0] returns no
    chunk either. *)
Lemma chunk_segments_nonpositive (target overlap : Z) (self : TextChunker)
    (segments : list Segment) (src : option str) :
  TextChunker_init target overlap = Ok self -> target <= 0 ->
  chunk_segments self segments src = Ok [].
Proof.
  intros Hinit Htarget. apply TextChunker_init_ok in Hinit.
  destruct Hinit as [Hlt [Ht [_ Hs]]].
  assert (Hret : exists ws, chunk_windows self segments src = Ok ws).
  { destruct segments as [|s segs] eqn:E; [simpl; eauto|].
    rewrite chunk_windows_loop by discriminate.
    apply chunk_loop_nonpositive; unfold len; lia. }
  destruct Hret as [ws Hws].
  assert (H : chunk_segments self segments src = Ok (chunks_of ws)).
  { unfold Chunker.chunk_segments, fmap. rewrite Hws. reflexivity. }
  rewrite H. f_equal. eapply chunk_segments_no_chunk. exact H.
Qed.





(** C4.  Construction raises exactly when [overlap_chars >= target_chars],
    and then [chunk_transcript] raises without chunking; the values of
    the tests behave so. *)
Theorem TextChunker_init_validates (target overlap : Z) :
  (overlap >= target <->
   TextChunker_init target overlap =
   Raise (ValueError "overlap_chars must be less than target_chars")) /\
  (overlap < target <->
   TextChunker_init target overlap =
   Ok (mkTextChunker target overlap (target - overlap))) /\
  (overlap >= target <->
   forall segments src,
     chunk_transcript segments target overlap src =
     Raise (ValueError "overlap_chars must be less than target_chars")) /\
  TextChunker_init 50 50 =
    Raise (ValueError "overlap_chars must be less than target_chars") /\
  TextChunker_init 50 60 =
    Raise (ValueError "overlap_chars must be less than target_chars") /\
  TextChunker_init 50 10 = Ok (mkTextChunker 50 10 40).
Proof.
  unfold Chunker.chunk_transcript, TextChunker_init.
  destruct (overlap >=? target) eqn:E.
  - apply Z.geb_le in E.
    repeat split; intros; try reflexivity; try discriminate; try lia.
  - rewrite Z.geb_leb in E. apply Z.leb_gt in E.
    repeat split; intros; try reflexivity; try discriminate; try lia.
    specialize (H [] None). simpl in H. discriminate.
Qed.

(** C6.  On the empty list of segments [chunk_segments] returns the
    empty list of chunks. *)
Theorem chunk_segments_empty (self : TextChunker) (src : option str) :
  chunk_segments self [] src = Ok [].
Proof. reflexivity. Qed.

End ChunkTheorems.

(** ** The theorems on sample inputs *)

Import Samples.





(** C3, where the code departs from it.  The chunker and the segments
    of tests/test_chunk.py: the list is not empty, the chunker was
    constructed, and the call raises [TypeError] instead of returning a
    chunk. *)
Theorem chunk_segments_test_segments_raises :
  test_segments <> [] /\
  TextChunker_init 50 10 = Ok test_chunker /\
  chunk_segments Z Z.eq_dec test_chunker test_segments None =
  Raise (TypeError "unhashable type: 'Segment'").
Proof.
  split; [discriminate|]. split; vm_compute; reflexivity.
Qed.

(** C2, where the code departs from it.  The same chunker and segments:
    the joined text has 136 characters, the loop raises in its first
    window, which is [0, 50), and offset 50 of the text is never in a
    window. *)
Theorem chunk_windows_test_segments_raises :
  TextChunker_init 50 10 = Ok test_chunker /\
  len (full_text_of test_segments) = 136 /\
  chunk_windows Z Z.eq_dec test_chunker test_segments None =
  Raise (TypeError "unhashable type: 'Segment'").
Proof.
  split; [reflexivity|]. split; vm_compute; reflexivity.
Qed.

End ChunkTheorems.

(* ================================================================= *)
(** * Facts about the normalizer's helpers *)

Module NormalizeLemmas.

(** ** Whitespace *)

Lemma lstrip_idempotent (s : str) : lstrip (lstrip s) = lstrip s.
Proof.
  induction s as [|c s IH]; simpl; [reflexivity|].
  destruct (isspace c) eqn:E; [exact IH|].
  simpl. rewrite E. reflexivity.
Qed.

Lemma rstrip_idempotent (s : str) : rstrip (rstrip s) = rstrip s.
Proof.
  unfold rstrip. rewrite rev_involutive, lstrip_idempotent. reflexivity.
Qed.

Lemma strip_idempotent (s : str) : strip (strip s) = strip s.
Proof.
  assert (H : lstrip (strip s) = strip s).
  { destruct (strip s) as [|c r] eqn:E; [reflexivity|].
    apply lstrip_keeps. eapply strip_head; eauto. }
  unfold strip at 1. rewrite H. unfold strip.
  apply rstrip_idempotent.
Qed.

Lemma rstrip_prefix (s : str) : exists t, s = rstrip s ++ t.
Proof.
  unfold rstrip.
  assert (H : forall u : str, exists v, u = v ++ lstrip u).
  { induction u as [|a u [v Hv]]; simpl.
    - exists []. reflexivity.
    - destruct (isspace a).
      + exists (a :: v). simpl. f_equal. exact Hv.
      + exists []. reflexivity. }
  destruct (H (rev s)) as [v Hv].
  exists (rev v). rewrite <- rev_app_distr, <- Hv, rev_involutive.
  reflexivity.
Qed.

Lemma single_spaced_weaken (s : str) :
  single_spaced true s -> single_spaced false s.
Proof.
  destruct s as [|c s]; simpl; [auto|].
  destruct (isspace c); [|auto].
  intros [_ [H _]]. discriminate.
Qed.

Lemma collapse_single_spaced (s : str) :
  forall b, single_spaced b (collapse_from b s).
Proof.
  induction s as [|c s IH]; intros b; simpl; [exact I|].
  destruct (isspace c) eqn:E.
  - destruct b; [apply IH|].
    simpl. replace (isspace " "%char) with true by reflexivity.
    repeat split. apply IH.
  - simpl. rewrite E. apply IH.
Qed.

Lemma collapse_fixed (s : str) :
  forall b, single_spaced b s -> collapse_from b s = s.
Proof.
  induction s as [|c s IH]; intros b H; simpl in *; [reflexivity|].
  destruct (isspace c).
  - destruct H as [-> [-> H]]. f_equal. apply IH. exact H.
  - f_equal. apply IH. exact H.
Qed.

Lemma lstrip_single_spaced (s : str) :
  forall b, single_spaced b s -> single_spaced false (lstrip s).
Proof.
  induction s as [|c s IH]; intros b H; simpl in *; [exact I|].
  destruct (isspace c) eqn:E.
  - destruct H as [_ [_ H]]. eapply IH; eauto.
  - simpl. rewrite E. exact H.
Qed.

Lemma single_spaced_prefix (s t : str) :
  forall b, single_spaced b (s ++ t) -> single_spaced b s.
Proof.
  induction s as [|c s IH]; intros b H; simpl in *; [exact I|].
  destruct (isspace c).
  - destruct H as [H1 [H2 H3]]. repeat split; auto.
  - auto.
Qed.

Lemma strip_single_spaced (s : str) :
  single_spaced false s -> single_spaced false (strip s).
Proof.
  intros H. unfold strip.
  apply lstrip_single_spaced in H.
  destruct (rstrip_prefix (lstrip s)) as [t Ht].
  rewrite Ht in H. eapply single_spaced_prefix; eauto.
Qed.

(** Collapsing and stripping a second time changes nothing. *)
Lemma strip_collapse_idempotent (s : str) :
  strip (collapse_whitespace (strip (collapse_whitespace s))) =
  strip (collapse_whitespace s).
Proof.
  unfold collapse_whitespace.
  rewrite (collapse_fixed (strip (collapse_from false s)) false).
  - apply strip_idempotent.
  - apply strip_single_spaced. apply collapse_single_spaced.
Qed.

(** ** Matching *)

Lemma char_before_cons (prev : option ascii) (c : ascii) (m : str) :
  char_before (Some c) m = char_before prev (c :: m).
Proof.
  destruct m as [|x m]; [reflexivity|].
  unfold char_before. f_equal. symmetry. apply last_cons_default.
Qed.

Lemma match_literal_spec (t : str) :
  forall prev s prev' rest,
    match_literal t prev s = Some (prev', rest) ->
    exists m,
      s = m ++ rest /\ length m = length t /\ lower m = lower t /\
      prev' = char_before prev m.
Proof.
  induction t as [|p t IH]; intros prev s prev' rest H; simpl in H.
  - inversion H; subst. exists []. auto.
  - destruct s as [|c s]; [discriminate|].
    destruct (Ascii.eqb (lower_char p) (lower_char c)) eqn:E;
      [|discriminate].
    apply Ascii.eqb_eq in E.
    destruct (IH _ _ _ _ H) as [m [-> [Hlen [Hlow ->]]]].
    exists (c :: m). rewrite (char_before_cons prev c m).
    simpl. rewrite Hlen, Hlow, E. repeat split.
Qed.

Lemma match_literal_ignores_case (t : str) :
  forall m prev rest,
    lower m = lower t ->
    match_literal t prev (m ++ rest) = Some (char_before prev m, rest).
Proof.
  induction t as [|p t IH]; intros m prev rest H.
  - destruct m; [reflexivity|discriminate].
  - destruct m as [|c m]; [discriminate|].
    simpl in H. inversion H as [[Hc Hm]].
    simpl app. cbn [match_literal]. rewrite Hc, Ascii.eqb_refl.
    rewrite (IH m (Some c) rest Hm).
    rewrite char_before_cons with (prev := prev). reflexivity.
Qed.

Lemma firstn_app_exact {A : Type} (m rest : list A) (n : nat) :
  length m = n -> firstn n (m ++ rest) = m /\ skipn n (m ++ rest) = rest.
Proof.
  intros <-. split.
  - rewrite firstn_app, Nat.sub_diag, firstn_all. simpl.
    apply app_nil_r.
  - rewrite skipn_app, Nat.sub_diag, skipn_all. reflexivity.
Qed.

Lemma match_alternatives_spec (alts : list str) :
  forall prev s adv n,
    match_alternatives alts prev s adv = Some n ->
    exists t,
      In t alts /\ n = length t /\
      lower (firstn n s) = lower t /\
      at_boundary (char_before prev (firstn n s)) (skipn n s) = true /\
      (adv = true -> n <> O).
Proof.
  induction alts as [|t alts IH]; intros prev s adv n H; simpl in H;
    [discriminate|].
  assert (Hnext : match_alternatives alts prev s adv = Some n ->
                  exists t0, In t0 (t :: alts) /\ n = length t0 /\
                    lower (firstn n s) = lower t0 /\
                    at_boundary (char_before prev (firstn n s))
                                (skipn n s) = true /\
                    (adv = true -> n <> O)).
  { intros H'. destruct (IH _ _ _ _ H') as [t0 [Hin Hrest]].
    exists t0. split; [right; exact Hin|exact Hrest]. }
  destruct (match_literal t prev s) as [[prev' rest]|] eqn:Hlit; [|auto].
  destruct (at_boundary prev' rest
            && negb (adv && (length t =? 0)%nat)) eqn:Hb; [|auto].
  inversion H; subst n. clear Hnext.
  apply andb_prop in Hb. destruct Hb as [Hb Hadv].
  destruct (match_literal_spec _ _ _ _ _ Hlit) as [m [-> [Hlen [Hlow ->]]]].
  destruct (firstn_app_exact m rest (length t) Hlen) as [-> ->].
  exists t. split; [left; reflexivity|].
  repeat split; auto.
  intros ->. simpl in Hadv. apply negb_true_iff in Hadv.
  apply Nat.eqb_neq in Hadv. exact Hadv.
Qed.

(** ** Substitution where nothing matches *)

Lemma sub_scan_no_match (p : Pattern) (repl : str -> str) (s : str) :
  forall prev, search_from p prev s = None -> sub_scan p repl prev s O = s.
Proof.
  induction s as [|c s IH]; intros prev H; simpl in H; simpl;
    unfold matches_here;
    destruct (match_at p prev _ false) eqn:E; try discriminate.
  - reflexivity.
  - simpl. f_equal. apply IH.
    destruct (search_from p (Some c) s) as [[b n]|]; [discriminate|].
    reflexivity.
Qed.

Lemma sub_no_match (p : Pattern) (repl : str -> str) (text : str) :
  search p text = None -> sub p repl text = text.
Proof. apply sub_scan_no_match. Qed.

(** ** Ordering the glossary terms *)

Lemma insert_by_len_perm (x : str) (l : list str) :
  Permutation (x :: l) (insert_by_len x l).
Proof.
  induction l as [|y l IH]; simpl; [apply Permutation_refl|].
  destruct (length x <? length y)%nat.
  - eapply perm_trans; [apply perm_swap|]. constructor. exact IH.
  - apply Permutation_refl.
Qed.

Lemma sorted_by_len_perm (l : list str) : Permutation l (sorted_by_len l).
Proof.
  induction l as [|x l IH]; simpl; [constructor|].
  eapply perm_trans; [|apply insert_by_len_perm]. constructor. exact IH.
Qed.

Lemma insert_by_len_sorted (x : str) (l : list str) :
  StronglySorted longer_or_equal l ->
  StronglySorted longer_or_equal (insert_by_len x l).
Proof.
  induction l as [|y l IH]; intros Hs; simpl.
  - repeat constructor.
  - inversion Hs as [|? ? Hs' Hall]; subst.
    destruct (length x <? length y)%nat eqn:E.
    + apply Nat.ltb_lt in E. constructor; [apply IH; exact Hs'|].
      apply Forall_forall. intros z Hz.
      eapply Permutation_in in Hz;
        [|apply Permutation_sym, insert_by_len_perm].
      destruct Hz as [<-|Hz]; [unfold longer_or_equal; lia|].
      rewrite Forall_forall in Hall. apply Hall. exact Hz.
    + apply Nat.ltb_ge in E. constructor; [exact Hs|].
      constructor; [exact E|].
      eapply Forall_impl; [|exact Hall].
      unfold longer_or_equal. intros z Hz. lia.
Qed.

Lemma sorted_by_len_sorted (l : list str) :
  StronglySorted longer_or_equal (sorted_by_len l).
Proof.
  induction l as [|x l IH]; simpl; [constructor|].
  apply insert_by_len_sorted. exact IH.
Qed.

End NormalizeLemmas.

Import NormalizeLemmas.

(* ================================================================= *)
(** * Properties of the normalizer *)

Module NormalizeTheorems.

Import Samples.

(** Where no pass finds anything, only the whitespace is touched. *)
Lemma normalize_no_terms (self : TextNormalizer) (text : str) :
  has_glossary_term self text = false ->
  has_filler self text = false ->
  normalize self text =
  match text with
  | [] => []
  | _ :: _ => strip (collapse_whitespace text)
  end.
Proof.
  unfold has_glossary_term, has_filler, normalize, _apply_glossary,
    _remove_fillers.
  intros Hg Hf. destruct text as [|c text]; [reflexivity|].
  cbv zeta.
  destruct (glossary self) as [|kv items].
  - destruct (remove_fillers self); [|reflexivity].
    destruct (filler_pattern self) as [pattern|]; [|reflexivity].
    rewrite sub_no_match; [reflexivity|].
    destruct (search pattern (c :: text)); [discriminate|reflexivity].
  - rewrite (sub_no_match (glossary_pattern self)).
    2:{ destruct (search (glossary_pattern self) (c :: text));
          [discriminate|reflexivity]. }
    destruct (remove_fillers self); [|reflexivity].
    destruct (filler_pattern self) as [pattern|]; [|reflexivity].
    rewrite sub_no_match; [reflexivity|].
    destruct (search pattern (c :: text)); [discriminate|reflexivity].
Qed.

Lemma normalize_is_clean (self : TextNormalizer) (text : str) :
  strip (collapse_whitespace (normalize self text)) = normalize self text.
Proof.
  unfold normalize. destruct text as [|c text]; [reflexivity|].
  apply strip_collapse_idempotent.
Qed.

(** C8.  When neither the glossary pass nor the filler pass finds a
    match in the normalized text, normalizing it again returns it
    unchanged. *)
Theorem normalize_idempotent (self : TextNormalizer) (text : str) :
  has_glossary_term self (normalize self text) = false ->
  has_filler self (normalize self text) = false ->
  normalize self (normalize self text) = normalize self text.
Proof.
  intros Hg Hf. rewrite (normalize_no_terms self _ Hg Hf).
  destruct (normalize self text) as [|c t] eqn:E; [reflexivity|].
  rewrite <- E. apply normalize_is_clean.
Qed.

Lemma normalize_idempotent_scenario :
  let self := TextNormalizer_init test_glossary true in
  let text := lit "um  this   is like great " in
  normalize self text = lit "this is great" /\
  has_glossary_term self (normalize self text) = false /\
  has_filler self (normalize self text) = false /\
  normalize self (normalize self text) = normalize self text.
Proof.
  split; [reflexivity|]. split; [reflexivity|]. split; [reflexivity|].
  apply (normalize_idempotent (TextNormalizer_init test_glossary true)
           (lit "um  this   is like great ")); reflexivity.
Defined.

Lemma replace_func_stored (items : Glossary) :
  forall matched key value,
    In (key, value) items -> lower key = lower matched ->
    exists key' value',
      In (key', value') items /\ lower key' = lower matched /\
      replace_func items matched = value'.
Proof.
  induction items as [|[k v] items IH]; intros matched key value Hin Hlow;
    [contradiction|].
  simpl. unfold str_eqb.
  destruct (str_eq_dec (lower k) (lower matched)) as [E|E].
  - exists k, v. split; [left; reflexivity|]. auto.
  - destruct Hin as [Heq|Hin]; [inversion Heq; subst; contradiction|].
    destruct (IH matched key value Hin Hlow) as [k' [v' [H1 [H2 H3]]]].
    exists k', v'. split; [right; exact H1|]. auto.
Qed.

(** C7.  With the glossary of the scenario, "tc pcm is great" and
    "TCPCM is great" both normalize to "TcPCM is great", whether fillers
    are removed or not.  The pattern of a glossary lists its keys
    longest first; a literal matches whatever the case of the text; a
    match begins and ends at a word boundary and is one of the
    alternatives up to case; and the replacement is the value stored for
    a key that equals the matched text up to case. *)
Theorem glossary_scenario :
  (forall fillers,
     normalize (TextNormalizer_init test_glossary fillers)
               (lit "tc pcm is great") = lit "TcPCM is great" /\
     normalize (TextNormalizer_init test_glossary fillers)
               (lit "TCPCM is great") = lit "TcPCM is great") /\
  (forall key value loaded fillers,
     let terms :=
       alternatives
         (glossary_pattern
            (TextNormalizer_init ((key, value) :: loaded) fillers)) in
     Permutation (key :: map fst loaded) terms /\
     StronglySorted longer_or_equal terms) /\
  (forall t m prev rest,
     lower m = lower t ->
     match_literal t prev (m ++ rest) = Some (char_before prev m, rest)) /\
  (forall p prev s must_advance n,
     match_at p prev s must_advance = Some n ->
     at_boundary prev s = true /\
     at_boundary (char_before prev (firstn n s)) (skipn n s) = true /\
     exists t,
       In t (alternatives p) /\ length t = n /\
       lower (firstn n s) = lower t) /\
  (forall items matched key value,
     In (key, value) items -> lower key = lower matched ->
     exists key' value',
       In (key', value') items /\ lower key' = lower matched /\
       replace_func items matched = value').
Proof.
  split; [intros [|]; split; vm_compute; reflexivity|].
  split.
  { intros key value loaded fillers. simpl.
    pose proof (sorted_by_len_perm (key :: map fst loaded)) as Hp.
    pose proof (sorted_by_len_sorted (key :: map fst loaded)) as Hs.
    simpl in Hp, Hs.
    destruct (insert_by_len key (sorted_by_len (map fst loaded)))
      as [|t ts] eqn:E.
    - apply Permutation_sym, Permutation_nil in Hp. discriminate.
    - simpl. split; assumption. }
  split; [intros; apply match_literal_ignores_case; assumption|].
  split; [|apply replace_func_stored].
  intros p prev s adv n H. unfold match_at in H.
  destruct (at_boundary prev s) eqn:Hb; [|discriminate].
  split; [reflexivity|].
  destruct (match_alternatives_spec _ _ _ _ _ H)
    as [t [Hin [Hn [Hlow [Hend _]]]]].
  split; [exact Hend|]. exists t. auto.
Qed.

End NormalizeTheorems.

(* ================================================================= *)
(** * More about the chunker *)

Module ChunkMore.

Lemma range_unfold (lo hi : Z) :
  lo < hi -> range lo hi = lo :: range (lo + 1) hi.
Proof.
  intros H. unfold range.
  replace (Z.to_nat (hi - lo)) with (S (Z.to_nat (hi - (lo + 1)))) by lia.
  simpl. rewrite Z.add_0_r. f_equal.
  rewrite <- seq_shift, map_map. apply map_ext. intros k. lia.
Qed.

Lemma range_length (lo hi : Z) : length (range lo hi) = Z.to_nat (hi - lo).
Proof. unfold range. rewrite length_map, length_seq. reflexivity. Qed.

Lemma lstrip_suffix (s : str) : exists a, s = a ++ lstrip s.
Proof.
  induction s as [|c s [a Ha]]; simpl.
  - exists []. reflexivity.
  - destruct (isspace c).
    + exists (c :: a). simpl. f_equal. exact Ha.
    + exists []. reflexivity.
Qed.

Lemma strip_infix (s : str) : exists a b, s = a ++ strip s ++ b.
Proof.
  destruct (lstrip_suffix s) as [a Ha].
  destruct (NormalizeLemmas.rstrip_prefix (lstrip s)) as [b Hb].
  exists a, b. unfold strip. rewrite <- Hb. exact Ha.
Qed.

Section ChunkMore.

Variable time : Type.
Variable time_eq_dec : forall a b : time, {a = b} + {a <> b}.

Local Abbreviation Segment := (Segment time).
Local Abbreviation Chunk := (Chunk time).
Local Abbreviation window := (window time).
Local Abbreviation chunk_segments := (chunk_segments time time_eq_dec).
Local Abbreviation chunk_windows := (chunk_windows time time_eq_dec).
Local Abbreviation chunk_transcript := (chunk_transcript time time_eq_dec).

(** ** The two halves of [join_segments] *)

Lemma join_lengths (segs : list Segment) :
  length (fst (join_segments segs)) = length (snd (join_segments segs)).
Proof.
  rewrite join_segments_flat. simpl.
  induction segs as [|s segs IH]; [reflexivity|].
  cbn [flat_map fst snd] in *.
  rewrite (length_app (seg_text s ++ [" "%char])).
  rewrite (length_app (repeat s _)), repeat_length, IH. reflexivity.
Qed.

Lemma join_fst_cons (s : Segment) (segs : list Segment) :
  fst (join_segments (s :: segs)) =
  (seg_text s ++ [" "%char]) ++ fst (join_segments segs).
Proof. rewrite !join_segments_flat. reflexivity. Qed.

Lemma full_text_fits (segs : list Segment) :
  len (full_text_of segs) <= len (snd (join_segments segs)).
Proof.
  unfold full_text_of.
  pose proof (strip_length_le (fst (join_segments segs))) as H.
  unfold len in *. rewrite <- join_lengths. exact H.
Qed.

Lemma full_text_has_content (segs : list Segment) :
  full_text_of segs <> [] -> has_content segs.
Proof.
  intros Hne. destruct (full_text_of segs) as [|c r] eqn:E; [congruence|].
  unfold full_text_of in E.
  pose proof (strip_head _ _ _ E) as Hc.
  destruct (strip_infix (fst (join_segments segs))) as [a [b Hab]].
  rewrite E in Hab.
  assert (Hin : In c (fst (join_segments segs))).
  { rewrite Hab. apply in_or_app. right. left. reflexivity. }
  rewrite join_segments_flat in Hin. cbn [fst] in Hin.
  apply in_flat_map in Hin. destruct Hin as [seg [Hseg Hin]].
  apply in_app_or in Hin. destruct Hin as [Hin|[<-|[]]].
  - exists seg, c. auto.
  - discriminate.
Qed.

(** X7.  [join_segments] keeps its two results in step: they have the
    same length, and the character at an offset of the joined text is a
    character of the text, or the space after the text, of the segment
    that [char_to_segment] has at that offset. *)
Theorem char_to_segment_aligned (segs : list Segment) :
  length (fst (join_segments segs)) = length (snd (join_segments segs)) /\
  forall i seg,
    nth_error (snd (join_segments segs)) i = Some seg ->
    exists pre post k,
      segs = pre ++ seg :: post /\
      i = (length (fst (join_segments pre)) + k)%nat /\
      (k <= length (seg_text seg))%nat /\
      nth_error (fst (join_segments segs)) i =
      nth_error (seg_text seg ++ [" "%char]) k.
Proof.
  split; [apply join_lengths|].
  induction segs as [|s segs IH]; intros i seg Hi.
  - destruct i; discriminate.
  - rewrite join_segments_flat in Hi |- *. cbn [flat_map fst snd] in *.
    rewrite join_segments_flat in IH. cbn [fst snd] in IH.
    destruct (Nat.lt_ge_cases i (length (seg_text s ++ [" "%char])))
      as [Hlt|Hge].
    + rewrite nth_error_app1 in Hi by (rewrite repeat_length; exact Hlt).
      apply nth_error_In, repeat_spec in Hi. subst seg.
      exists [], segs, i. split; [reflexivity|].
      split; [reflexivity|].
      split; [rewrite length_app in Hlt; simpl in Hlt; lia|].
      apply nth_error_app1. exact Hlt.
    + rewrite nth_error_app2 in Hi by (rewrite repeat_length; exact Hge).
      rewrite repeat_length in Hi.
      destruct (IH _ _ Hi) as [pre [post [k [-> [Hk [Hle Hch]]]]]].
      exists (s :: pre), post, k. split; [reflexivity|].
      rewrite join_fst_cons.
      split; [rewrite length_app; lia|].
      split; [exact Hle|].
      rewrite nth_error_app2 by exact Hge. exact Hch.
Qed.

(** X20.  What a chunker that was constructed does with a list of
    segments.  With [target_chars >= 1] and a segment that has a
    character other than whitespace it raises [TypeError]: the first
    window puts a [Segment] into a set, and a [Segment] cannot be
    hashed.  It returns the empty list when no segment has such a
    character, and also when [target_chars <= 0]. *)
Theorem chunk_segments_outcome (target overlap : Z) (self : TextChunker)
    (segs : list Segment) (src : option str) :
  TextChunker_init target overlap = Ok self ->
  (1 <= target -> has_content segs ->
   chunk_segments self segs src =
   Raise (TypeError "unhashable type: 'Segment'")) /\
  (~ has_content segs -> chunk_segments self segs src = Ok []) /\
  (target <= 0 -> chunk_segments self segs src = Ok []).
Proof.
  intros Hinit.
  pose proof (ChunkTheorems.TextChunker_init_ok _ _ _ Hinit)
    as [_ [Htarget _]].
  split; [|split].
  - intros Hpos Hcontent.
    apply ChunkTheorems.chunk_segments_raise; [lia|exact Hcontent].
  - apply ChunkTheorems.chunk_segments_blank.
  - intros Hneg.
    eapply ChunkTheorems.chunk_segments_nonpositive; eauto.
Qed.

(** X21.  No call ever returns a chunk: whatever the chunker and the
    segments, a list that [chunk_segments] or [chunk_transcript]
    returns is empty. *)
Theorem chunk_never_emitted (self : TextChunker) (segs : list Segment)
    (target overlap : Z) (src : option str) (chunks : list Chunk) :
  chunk_segments self segs src = Ok chunks \/
  chunk_transcript segs target overlap src = Ok chunks ->
  chunks = [].
Proof.
  intros [H|H].
  - eapply ChunkTheorems.chunk_segments_no_chunk. exact H.
  - unfold Chunker.chunk_transcript in H.
    destruct (TextChunker_init target overlap) as [chunker| |];
      simpl in H; try discriminate.
    eapply ChunkTheorems.chunk_segments_no_chunk. exact H.
Qed.

(** X22.  The text that [chunk_segments] cuts up is not empty exactly
    when some segment has a character other than whitespace, and it is
    never longer than [char_to_segment]: every offset of the text has
    an entry there. *)
Theorem full_text_content (segs : list Segment) :
  (full_text_of segs <> [] <-> has_content segs) /\
  len (full_text_of segs) <= len (snd (join_segments segs)).
Proof.
  split; [split|].
  - apply full_text_has_content.
  - apply has_content_full_text.
  - apply full_text_fits.
Qed.

End ChunkMore.

(** ** On the inputs of the tests *)

Import Samples.

Lemma test_segments_have_content : has_content test_segments.
Proof.
  exists (mkSegment 0 0 5 (lit "This is the first segment.")), "T"%char.
  split; [left; reflexivity|]. split; [left; reflexivity|reflexivity].
Defined.

Lemma chunk_segments_outcome_test_segments :
  TextChunker_init 50 10 = Ok test_chunker /\
  has_content test_segments /\
  (1 <= 50 -> has_content test_segments ->
   chunk_segments Z Z.eq_dec test_chunker test_segments None =
   Raise (TypeError "unhashable type: 'Segment'")) /\
  (~ has_content test_segments ->
   chunk_segments Z Z.eq_dec test_chunker test_segments None = Ok []) /\
  (50 <= 0 ->
   chunk_segments Z Z.eq_dec test_chunker test_segments None = Ok []).
Proof.
  split; [reflexivity|]. split; [exact test_segments_have_content|].
  apply (chunk_segments_outcome Z Z.eq_dec 50 10 test_chunker test_segments
           None).
  reflexivity.
Defined.

Lemma chunk_never_emitted_silent_segments :
  (chunk_segments Z Z.eq_dec test_chunker silent_segments None = Ok [] \/
   chunk_transcript Z Z.eq_dec silent_segments 50 10 None = Ok []) /\
  @nil (Chunk Z) = [].
Proof.
  split; [left; reflexivity|].
  apply (chunk_never_emitted Z Z.eq_dec test_chunker silent_segments 50 10
           None []).
  left. reflexivity.
Defined.

End ChunkMore.

(* ================================================================= *)
(** * More about the normalizer *)

Module NormalizeMore.

Import Samples.

Lemma isspace_not_word (c : ascii) : isspace c = true -> isword c = false.
Proof.
  destruct c as [[] [] [] [] [] [] [] []]; vm_compute; congruence.
Qed.

Lemma single_spaced_spaces (s : str) :
  forall b c, single_spaced b s -> In c s -> isspace c = true ->
              c = " "%char.
Proof.
  induction s as [|x s IH]; intros b c Hs Hin Hc; [contradiction|].
  simpl in Hs. destruct Hin as [->|Hin].
  - rewrite Hc in Hs. destruct Hs as [-> _]. reflexivity.
  - destruct (isspace x).
    + destruct Hs as [_ [_ Hs]]. eapply IH; eauto.
    + eapply IH; eauto.
Qed.

Lemma single_spaced_apart (pre : str) :
  forall flag a b post,
    single_spaced flag (pre ++ a :: b :: post) ->
    isspace a = true -> isspace b = false.
Proof.
  induction pre as [|x pre IH]; intros flag a b post Hs Ha.
  - simpl in Hs. rewrite Ha in Hs. destruct Hs as [_ [_ Hs]].
    destruct (isspace b); [|reflexivity].
    destruct Hs as [_ [Hf _]]. discriminate.
  - simpl in Hs. destruct (isspace x).
    + destruct Hs as [_ [_ Hs]]. eapply IH; eauto.
    + eapply IH; eauto.
Qed.

Lemma normalize_single_spaced (self : TextNormalizer) (text : str) :
  single_spaced false (normalize self text).
Proof.
  unfold normalize. destruct text as [|c text]; [exact I|].
  apply strip_single_spaced. apply collapse_single_spaced.
Qed.

(** X9.  The result of [normalize] has no whitespace at either end, no
    whitespace character other than the space, and no two whitespace
    characters in a row. *)
Theorem normalize_whitespace (self : TextNormalizer) (text : str) :
  strip (normalize self text) = normalize self text /\
  (forall c, In c (normalize self text) -> isspace c = true ->
             c = " "%char) /\
  (forall pre a b post,
     normalize self text = pre ++ a :: b :: post ->
     isspace a = true -> isspace b = false).
Proof.
  pose proof (normalize_single_spaced self text) as Hs.
  split.
  - unfold normalize. destruct text as [|c text]; [reflexivity|].
    apply strip_idempotent.
  - split.
    + intros c Hin Hc. eapply single_spaced_spaces; eauto.
    + intros pre a b post Heq Ha. rewrite Heq in Hs.
      eapply single_spaced_apart; eauto.
Qed.

Lemma search_blank (p : Pattern) (s : str) :
  forall prev,
    word_before prev = false -> forallb isspace s = true ->
    search_from p prev s = None.
Proof.
  induction s as [|c s IH]; intros prev Hprev Hs; simpl.
  - unfold match_at, at_boundary. rewrite Hprev. reflexivity.
  - simpl in Hs. apply andb_prop in Hs. destruct Hs as [Hc Hs].
    unfold match_at, at_boundary. rewrite Hprev. simpl.
    rewrite (isspace_not_word c Hc). simpl.
    rewrite IH; [reflexivity| |exact Hs].
    simpl. apply isspace_not_word. exact Hc.
Qed.

Lemma collapse_blank (s : str) :
  forall b, forallb isspace s = true ->
            forallb isspace (collapse_from b s) = true.
Proof.
  induction s as [|c s IH]; intros b Hs; simpl; [reflexivity|].
  simpl in Hs. apply andb_prop in Hs. destruct Hs as [Hc Hs].
  rewrite Hc. destruct b; simpl; auto.
Qed.

(** X10.  A text made of whitespace only normalizes to the empty text,
    whatever the glossary and the fillers. *)
Theorem normalize_blank (self : TextNormalizer) (text : str) :
  forallb isspace text = true -> normalize self text = [].
Proof.
  intros Hs.
  rewrite NormalizeTheorems.normalize_no_terms.
  - destruct text as [|c text]; [reflexivity|].
    apply strip_all_space. apply collapse_blank. exact Hs.
  - unfold has_glossary_term. destruct (glossary self); [reflexivity|].
    unfold search. rewrite search_blank; auto.
  - unfold has_filler. destruct (remove_fillers self); [|reflexivity].
    destruct (filler_pattern self); [|reflexivity].
    unfold search. rewrite search_blank; auto.
Qed.

Lemma normalize_blank_spaces :
  forallb isspace (lit "   ") = true /\
  normalize (TextNormalizer_init test_glossary true) (lit "   ") = [].
Proof.
  split; [reflexivity|].
  apply (normalize_blank (TextNormalizer_init test_glossary true)
           (lit "   ")).
  reflexivity.
Defined.

Lemma sub_scan_delete_length (p : Pattern) (s : str) :
  forall prev skip,
    (length (sub_scan p (fun _ => []) prev s skip) <= length s)%nat.
Proof.
  induction s as [|c s IH]; intros prev skip.
  - destruct skip; simpl; [|lia]. unfold matches_here.
    destruct (match_at p prev [] false) as [[|n]|]; simpl; try lia.
    destruct (match_at p prev [] true) as [[|n]|]; simpl; lia.
  - destruct skip as [|k]; simpl.
    + assert (H : exists n, matches_here p (fun _ => []) prev (c :: s)
                            = ([], n)).
      { unfold matches_here.
        destruct (match_at p prev (c :: s) false) as [[|n]|]; eauto.
        destruct (match_at p prev (c :: s) true) as [[|n]|]; eauto. }
      destruct H as [n ->]. simpl.
      destruct n as [|k]; simpl.
      * specialize (IH (Some c) O). lia.
      * specialize (IH (Some c) k). lia.
    + specialize (IH (Some c) k). lia.
Qed.

Lemma collapse_length (s : str) :
  forall b, (length (collapse_from b s) <= length s)%nat.
Proof.
  induction s as [|c s IH]; intros b; simpl; [lia|].
  destruct (isspace c); [destruct b|]; simpl.
  - specialize (IH true). lia.
  - specialize (IH true). lia.
  - specialize (IH false). lia.
Qed.

(** X11.  With an empty glossary the normalized text is never longer
    than the text. *)
Theorem normalize_never_longer (self : TextNormalizer) (text : str) :
  glossary self = [] -> len (normalize self text) <= len text.
Proof.
  intros Hg. unfold normalize. rewrite Hg.
  destruct text as [|c text]; [lia|].
  remember (c :: text) as t eqn:Et. clear Et.
  assert (H : forall x : str,
            len (strip (collapse_whitespace x)) <= len x).
  { intros x. pose proof (strip_length_le (collapse_whitespace x)).
    pose proof (collapse_length x false).
    unfold collapse_whitespace, len in *. lia. }
  destruct (remove_fillers self); [|apply H].
  destruct (filler_pattern self) as [pattern|]; [|apply H].
  pose proof (H (_remove_fillers pattern t)).
  pose proof (sub_scan_delete_length pattern t None O).
  unfold _remove_fillers, sub, len in *. lia.
Qed.

Lemma normalize_never_longer_fillers :
  glossary (TextNormalizer_init [] true) = [] /\
  len (normalize (TextNormalizer_init [] true) (lit "um  so it is"))
  <= len (lit "um  so it is").
Proof.
  split; [reflexivity|].
  apply (normalize_never_longer (TextNormalizer_init [] true)
           (lit "um  so it is")).
  reflexivity.
Defined.

End NormalizeMore.

(* ================================================================= *)
(** * The recognizer's wrapper and the pipeline *)

Module AsrTheorems.

Import ChunkMore.

Section AsrTheorems.

Variable time : Type.
Variable time_eq_dec : forall a b : time, {a = b} + {a <> b}.
Variable zero : time.

Local Abbreviation Segment := (Segment time).
Local Abbreviation WhisperSegment := (WhisperSegment time).

Lemma transcribe_loop_closed (yielded : list WhisperSegment) :
  forall i segs calls,
    fold_left transcribe_step yielded (i, segs, calls) =
    (i + len yielded,
     segs ++ map (fun ky : Z * WhisperSegment =>
                    mkSegment (fst ky) (whisper_start (snd ky))
                              (whisper_end (snd ky))
                              (strip (whisper_text (snd ky))))
                 (enumerate i yielded),
     calls ++ combine (map whisper_end yielded)
                      (range (len segs + 1)
                             (len segs + 1 + len yielded))).
Proof.
  induction yielded as [|y ys IH]; intros i segs calls.
  - unfold enumerate. rewrite combine_nil. simpl. unfold len. simpl.
    rewrite Z.add_0_r, !app_nil_r. reflexivity.
  - cbn [fold_left transcribe_step]. rewrite IH.
    unfold enumerate, len. rewrite length_app. simpl length.
    rewrite (range_unfold i (i + Z.of_nat (S (length ys)))) by lia.
    rewrite (range_unfold (Z.of_nat (length segs) + 1)
               (Z.of_nat (length segs) + 1 + Z.of_nat (S (length ys))))
      by lia.
    cbn [combine map seg_end]. rewrite <- !app_assoc. cbn [app].
    replace (Z.of_nat (length segs + 1)) with (Z.of_nat (length segs) + 1)
      by lia.
    replace (i + 1 + Z.of_nat (length ys))
      with (i + Z.of_nat (S (length ys))) by lia.
    replace (Z.of_nat (length segs) + 1 + 1 + Z.of_nat (length ys))
      with (Z.of_nat (length segs) + 1 + Z.of_nat (S (length ys))) by lia.
    reflexivity.
Qed.

Lemma combine_fst {A B : Type} (l : list A) :
  forall l' : list B,
    length l = length l' -> map fst (combine l l') = l.
Proof.
  induction l as [|a l IH]; intros [|b l'] H; simpl in *;
    try discriminate; [reflexivity|].
  f_equal. apply IH. lia.
Qed.

Lemma combine_snd {A B : Type} (l : list A) :
  forall l' : list B,
    length l = length l' -> map snd (combine l l') = l'.
Proof.
  induction l as [|a l IH]; intros [|b l'] H; simpl in *;
    try discriminate; [reflexivity|].
  f_equal. apply IH. lia.
Qed.

Lemma enumerate_fst {A : Type} (start : Z) (l : list A) :
  map fst (enumerate start l) = range start (start + len l).
Proof.
  unfold enumerate. apply combine_fst.
  rewrite range_length. unfold len. lia.
Qed.

Lemma enumerate_snd {A : Type} (start : Z) (l : list A) :
  map snd (enumerate start l) = l.
Proof.
  unfold enumerate. apply combine_snd.
  rewrite range_length. unfold len. lia.
Qed.

Lemma last_of_app_map {A B : Type} (f : A -> B) (l : list A) (d : B)
    (a : A) :
  l <> [] -> last (map f l) d = f (last l a).
Proof.
  intros Hne. destruct (exists_last Hne) as [l' [x ->]].
  rewrite map_app. simpl. rewrite !last_last. reflexivity.
Qed.

(** X12.  [transcribe] numbers the segments 0, 1, 2, ... in the order in
    which the model yields them, keeps their timestamps, trims their
    texts, reports the end of the last segment as the duration ([0.0]
    when there is none), and calls the progress callback once per
    segment with the end of that segment and the count so far. *)
Theorem transcribe_numbering (yielded : list WhisperSegment)
    (info_language : option str) :
  let t := fst (transcribe zero yielded info_language) in
  let calls := snd (transcribe zero yielded info_language) in
  map seg_id (segments t) = range 0 (len yielded) /\
  map seg_start (segments t) = map whisper_start yielded /\
  map seg_end (segments t) = map whisper_end yielded /\
  map seg_text (segments t) =
    map (fun y => strip (whisper_text y)) yielded /\
  language t = info_language /\
  duration t = Some (last (map whisper_end yielded) zero) /\
  calls = combine (map whisper_end yielded) (range 1 (1 + len yielded)).
Proof.
  unfold transcribe, transcribe_loop.
  rewrite transcribe_loop_closed. cbn [fst snd segments language duration].
  set (build := fun ky : Z * WhisperSegment =>
                  mkSegment (fst ky) (whisper_start (snd ky))
                            (whisper_end (snd ky))
                            (strip (whisper_text (snd ky)))).
  simpl app.
  assert (Hends : map seg_end (map build (enumerate 0 yielded))
                  = map whisper_end yielded).
  { rewrite map_map. unfold build. simpl.
    rewrite <- (map_map snd whisper_end), enumerate_snd. reflexivity. }
  split.
  { rewrite map_map. unfold build. simpl.
    exact (enumerate_fst 0 yielded). }
  split.
  { rewrite map_map. unfold build. simpl.
    rewrite <- (map_map snd whisper_start), enumerate_snd. reflexivity. }
  split; [exact Hends|].
  split.
  { rewrite map_map. unfold build. simpl.
    rewrite <- (map_map snd (fun y => strip (whisper_text y))),
      enumerate_snd. reflexivity. }
  split; [reflexivity|].
  split; [|reflexivity].
  f_equal. rewrite <- Hends.
  destruct (map build (enumerate 0 yielded)) as [|s0 ss] eqn:E;
    [reflexivity|].
  symmetry. apply last_of_app_map. discriminate.
Qed.

Lemma transcribe_texts_trimmed (yielded : list WhisperSegment)
    (info_language : option str) (seg : Segment) :
  In seg (segments (fst (transcribe zero yielded info_language))) ->
  strip (seg_text seg) = seg_text seg.
Proof.
  unfold transcribe, transcribe_loop.
  rewrite transcribe_loop_closed. cbn [fst snd segments]. simpl app.
  intros Hin. apply in_map_iff in Hin. destruct Hin as [ky [<- _]].
  simpl. apply strip_idempotent.
Qed.

Lemma normalize_segments_trimmed (normalizer : TextNormalizer)
    (segs : list Segment) (seg : Segment) :
  In seg (normalize_segments normalizer segs) ->
  strip (seg_text seg) = seg_text seg.
Proof.
  unfold normalize_segments. intros Hin.
  apply in_map_iff in Hin. destruct Hin as [s [<- _]]. simpl.
  unfold normalize. destruct (seg_text s); [reflexivity|].
  apply strip_idempotent.
Qed.

Lemma trimmed_has_content (segs : list Segment) :
  (forall seg, In seg segs -> strip (seg_text seg) = seg_text seg) ->
  (exists seg, In seg segs /\ seg_text seg <> []) ->
  has_content segs.
Proof.
  intros Htrim [seg [Hin Hne]].
  pose proof (Htrim seg Hin) as Hs.
  destruct (seg_text seg) as [|c r] eqn:E; [congruence|].
  exists seg, c. split; [exact Hin|]. rewrite E.
  split; [left; reflexivity|]. eapply strip_head. exact Hs.
Qed.

Lemma empty_texts_no_content (segs : list Segment) :
  (forall seg, In seg segs -> seg_text seg = []) -> ~ has_content segs.
Proof.
  intros Hall [seg [c [Hin [Hc _]]]]. rewrite (Hall seg Hin) in Hc.
  contradiction.
Qed.

(** X13.  The pipeline of the command: segments that come from
    [transcribe], normalized in place or not, and then given to a
    chunker that was constructed with [target_chars >= 1].  When some
    segment has a text that is not empty the chunker raises [TypeError]
    and nothing is chunked; when every text is empty it returns no
    chunk. *)
Theorem pipeline_outcome (yielded : list WhisperSegment)
    (info_language : option str) (normalizer : option TextNormalizer)
    (target overlap : Z) (self : TextChunker) (src : option str) :
  TextChunker_init target overlap = Ok self ->
  1 <= target ->
  let heard := segments (fst (transcribe zero yielded info_language)) in
  let segs := match normalizer with
              | Some n => normalize_segments n heard
              | None => heard
              end in
  ((exists seg, In seg segs /\ seg_text seg <> []) ->
   chunk_segments time time_eq_dec self segs src =
   Raise (TypeError "unhashable type: 'Segment'")) /\
  ((forall seg, In seg segs -> seg_text seg = []) ->
   chunk_segments time time_eq_dec self segs src = Ok []).
Proof.
  intros Hinit Htarget heard segs.
  pose proof (ChunkTheorems.TextChunker_init_ok _ _ _ Hinit)
    as [_ [Ht _]].
  assert (Htrim : forall seg, In seg segs ->
                              strip (seg_text seg) = seg_text seg).
  { intros seg Hin. unfold segs in Hin. destruct normalizer as [n|].
    - eapply normalize_segments_trimmed. exact Hin.
    - eapply transcribe_texts_trimmed. exact Hin. }
  split.
  - intros Hex. apply ChunkTheorems.chunk_segments_raise; [lia|].
    apply trimmed_has_content; assumption.
  - intros Hall. apply ChunkTheorems.chunk_segments_blank.
    apply empty_texts_no_content. exact Hall.
Qed.

End AsrTheorems.

Import Samples.

Lemma pipeline_outcome_heard :
  TextChunker_init 50 10 = Ok test_chunker /\
  1 <= 50 /\
  let segs :=
    normalize_segments (TextNormalizer_init test_glossary true)
      (segments (fst (transcribe 0 heard (Some (lit "en"))))) in
  ((exists seg, In seg segs /\ seg_text seg <> []) ->
   chunk_segments Z Z.eq_dec test_chunker segs None =
   Raise (TypeError "unhashable type: 'Segment'")) /\
  ((forall seg, In seg segs -> seg_text seg = []) ->
   chunk_segments Z Z.eq_dec test_chunker segs None = Ok []).
Proof.
  split; [reflexivity|]. split; [discriminate|].
  apply (pipeline_outcome Z Z.eq_dec 0 heard (Some (lit "en"))
           (Some (TextNormalizer_init test_glossary true))
           50 10 test_chunker None); [reflexivity|discriminate].
Defined.

End AsrTheorems.

(* ================================================================= *)
(** * The exporters and the command line *)

Module ExportTheorems.

Import ChunkMore.

Lemma lower_char_idempotent (c : ascii) :
  lower_char (lower_char c) = lower_char c.
Proof. destruct c as [[] [] [] [] [] [] [] []]; reflexivity. Qed.

Lemma lower_idempotent (s : str) : lower (lower s) = lower s.
Proof.
  unfold lower. rewrite map_map. apply map_ext.
  apply lower_char_idempotent.
Qed.

Section ExportTheorems.

Variable time : Type.
Variable format_timestamp_srt : time -> str.
Variable format_timestamp_vtt : time -> str.
Variable dump_transcript : Transcript time -> str.
Variable dumps_chunk : Chunk time -> str.
Variable path_join : str -> str -> str.

Local Abbreviation export_all :=
  (export_all time format_timestamp_srt format_timestamp_vtt
     dump_transcript dumps_chunk path_join).
Local Abbreviation export_formats :=
  (export_formats time format_timestamp_srt format_timestamp_vtt
     dump_transcript dumps_chunk path_join).
Local Abbreviation export_selected :=
  (export_selected time format_timestamp_srt format_timestamp_vtt
     dump_transcript dumps_chunk path_join).
Local Abbreviation file_content :=
  (file_content time format_timestamp_srt format_timestamp_vtt
     dump_transcript dumps_chunk).

(** X14.  [export_formats] returns one entry for each known format
    that is among the requested ones, letter case ignored, in the order
    srt, vtt, json, jsonl; each entry has the path of that format's
    file; and after creating the directory it writes exactly these
    files, in this order.  Unknown formats are ignored. *)
Theorem export_formats_selects (transcript : Transcript time)
    (chunks : list (Chunk time)) (output_dir base_name : str)
    (formats : list str) :
  let outputs :=
    fst (export_formats transcript chunks output_dir base_name formats) in
  let effects :=
    snd (export_formats transcript chunks output_dir base_name formats) in
  map fst outputs =
    filter (fun k => mem k (map lower formats)) known_formats /\
  outputs =
    map (fun k => (k, path_join output_dir (file_name base_name k)))
        (map fst outputs) /\
  effects =
    Mkdir output_dir
    :: map (fun kp => WriteFile (snd kp)
                        (file_content transcript chunks (fst kp)))
           outputs.
Proof.
  unfold Exporters.export_formats, known_formats. cbn [filter].
  destruct (mem (lit "srt") (map lower formats));
    destruct (mem (lit "vtt") (map lower formats));
    destruct (mem (lit "json") (map lower formats));
    destruct (mem (lit "jsonl") (map lower formats));
    repeat split; reflexivity.
Qed.

Lemma export_formats_all_four (transcript : Transcript time)
    (chunks : list (Chunk time)) (output_dir base_name : str)
    (formats : list str) :
  mem (lit "srt") (map lower formats) = true ->
  mem (lit "vtt") (map lower formats) = true ->
  mem (lit "json") (map lower formats) = true ->
  mem (lit "jsonl") (map lower formats) = true ->
  export_formats transcript chunks output_dir base_name formats =
  export_all transcript chunks output_dir base_name.
Proof.
  intros H1 H2 H3 H4.
  unfold Exporters.export_formats, Exporters.export_all.
  rewrite H1, H2, H3, H4. reflexivity.
Qed.

(** X15.  When each of the four known formats is among the requested
    ones, letter case ignored, [export_formats] returns what
    [export_all] returns and writes what [export_all] writes. *)
Theorem export_formats_all (transcript : Transcript time)
    (chunks : list (Chunk time)) (output_dir base_name : str)
    (formats : list str) :
  (forall k, In k known_formats ->
             exists f, In f formats /\ lower f = k) ->
  export_formats transcript chunks output_dir base_name formats =
  export_all transcript chunks output_dir base_name.
Proof.
  intros H.
  assert (Hmem : forall k, In k known_formats ->
                           mem k (map lower formats) = true).
  { intros k Hk. destruct (H k Hk) as [f [Hf Hl]].
    unfold mem. apply existsb_exists. exists (lower f).
    split; [apply in_map; exact Hf|].
    unfold str_eqb. rewrite Hl.
    destruct (str_eq_dec k k); [reflexivity|contradiction]. }
  apply export_formats_all_four; apply Hmem; unfold known_formats;
    simpl; auto.
Qed.

(** X16.  The export step of the command.  The formats exported are the
    four known ones when no [--format] is given or "all" is among the
    formats in any letter case, and otherwise the known formats among
    the requested ones, letter case ignored, in the order srt, vtt,
    json, jsonl.  The step returns each of these formats with the path
    of its file under the output name, and after creating the directory
    it writes exactly these files, in this order, each with the content
    of its format. *)
Theorem export_selected_formats (transcript : Transcript time)
    (chunks : list (Chunk time)) (output_dir stem : str)
    (formats : option (list str)) :
  let requested :=
    map lower (match formats with Some fs => fs | None => [] end) in
  let exported :=
    match requested with
    | [] => known_formats
    | _ :: _ =>
        if mem (lit "all") requested then known_formats
        else filter (fun k => mem k requested) known_formats
    end in
  export_selected transcript chunks output_dir stem formats =
  (map (fun k => (k, path_join output_dir (file_name stem k))) exported,
   Mkdir output_dir
   :: map (fun k => WriteFile (path_join output_dir (file_name stem k))
                      (file_content transcript chunks k))
          exported).
Proof.
  unfold Cli.export_selected.
  destruct (map lower match formats with
                      | Some fs => fs
                      | None => []
                      end) as [|r rs] eqn:E; [reflexivity|].
  cbv zeta.
  destruct (mem (lit "all") (r :: rs)); [reflexivity|].
  unfold Exporters.export_formats, known_formats. cbn [filter].
  assert (Hl : map lower (r :: rs) = r :: rs).
  { rewrite <- E, map_map.
    rewrite (map_ext _ lower lower_idempotent). reflexivity. }
  rewrite Hl.
  destruct (mem (lit "srt") (r :: rs));
    destruct (mem (lit "vtt") (r :: rs));
    destruct (mem (lit "json") (r :: rs));
    destruct (mem (lit "jsonl") (r :: rs)); reflexivity.
Qed.

Lemma join_closed_lines (lines : list str) :
  join nl (lines ++ [[]]) = concat (map (fun l => l ++ nl) lines).
Proof.
  induction lines as [|l lines IH]; [reflexivity|].
  simpl. destruct (lines ++ [[]]) as [|x xs] eqn:E.
  - destruct lines; discriminate.
  - rewrite <- IH. rewrite <- app_assoc. reflexivity.
Qed.

Lemma enumerate_cons {A : Type} (i : Z) (x : A) (l : list A) :
  enumerate i (x :: l) = (i, x) :: enumerate (i + 1) l.
Proof.
  unfold enumerate, len. simpl length.
  rewrite (range_unfold i) by lia.
  replace (i + Z.of_nat (S (length l)))
    with (i + 1 + Z.of_nat (length l)) by lia.
  reflexivity.
Qed.

Lemma srt_blocks (segs : list (Segment time)) :
  forall i,
    segs <> [] ->
    join nl (srt_lines time format_timestamp_srt i segs) ++ nl =
    concat (map (srt_block time format_timestamp_srt) (enumerate i segs)).
Proof.
  induction segs as [|seg rest IH]; intros i Hne; [congruence|].
  rewrite enumerate_cons. cbn [map concat srt_lines app].
  unfold srt_block at 1. cbn [fst snd].
  destruct rest as [|seg' rest'].
  - unfold enumerate. rewrite combine_nil. cbn [srt_lines join map concat].
    rewrite !app_nil_r, <- !app_assoc. reflexivity.
  - rewrite <- (IH (i + 1)) by discriminate.
    remember (srt_lines time format_timestamp_srt (i + 1) (seg' :: rest'))
      as R eqn:ER.
    destruct R as [|r R']; [discriminate|].
    cbn [join]. rewrite <- !app_assoc. reflexivity.
Qed.

Lemma vtt_blocks (segs : list (Segment time)) :
  segs <> [] ->
  join nl (vtt_entries time format_timestamp_vtt segs) ++ nl =
  concat (map (vtt_block time format_timestamp_vtt) segs).
Proof.
  induction segs as [|seg rest IH]; intros Hne; [congruence|].
  cbn [map concat vtt_entries app]. unfold vtt_block at 1.
  destruct rest as [|seg' rest'].
  - cbn [vtt_entries join map concat].
    rewrite !app_nil_r, <- !app_assoc. reflexivity.
  - rewrite <- IH by discriminate.
    remember (vtt_entries time format_timestamp_vtt (seg' :: rest'))
      as R eqn:ER.
    destruct R as [|r R']; [discriminate|].
    cbn [join]. rewrite <- !app_assoc. reflexivity.
Qed.

Lemma removelast_nl (s : str) : removelast (s ++ nl) = s.
Proof. apply removelast_last. Qed.

(** X17.  The SRT file is the sequence of its entries, numbered from 1,
    each made of the number, the two timestamps, the text and a blank
    line, without the newline of the last blank line; the VTT file is
    the line WEBVTT, a blank line and the entries, each followed by a
    blank line, again without the last newline.  So the SRT file of no
    segment is empty and the VTT file of no segment is the header
    line. *)
Theorem subtitle_layout (segs : list (Segment time)) :
  srt_content time format_timestamp_srt segs =
    removelast
      (concat (map (srt_block time format_timestamp_srt)
                   (enumerate 1 segs))) /\
  vtt_content time format_timestamp_vtt segs =
    removelast
      (lit "WEBVTT" ++ nl ++ nl
       ++ concat (map (vtt_block time format_timestamp_vtt) segs)).
Proof.
  split.
  - destruct segs as [|seg rest]; [reflexivity|].
    rewrite <- srt_blocks by discriminate. rewrite removelast_nl.
    reflexivity.
  - unfold vtt_content.
    destruct segs as [|seg rest]; [reflexivity|].
    rewrite <- vtt_blocks by discriminate.
    remember (vtt_entries time format_timestamp_vtt (seg :: rest))
      as R eqn:ER.
    destruct R as [|r R']; [discriminate|].
    rewrite !app_assoc. rewrite removelast_nl.
    cbn [app join]. fold nl. rewrite <- !app_assoc. reflexivity.
Qed.

End ExportTheorems.

Lemma mixed_formats_cover :
  forall k, In k known_formats ->
            exists f, In f mixed_formats /\ lower f = k.
Proof.
  intros k Hk. unfold known_formats in Hk. simpl in Hk.
  destruct Hk as [<-|[<-|[<-|[<-|[]]]]].
  - exists (lit "SRT"). split; [simpl; auto|reflexivity].
  - exists (lit "vtt"). split; [simpl; auto|reflexivity].
  - exists (lit "Json"). split; [simpl; auto 6|reflexivity].
  - exists (lit "jsonl"). split; [simpl; auto 6|reflexivity].
Defined.

Lemma export_formats_all_mixed :
  (forall k, In k known_formats ->
             exists f, In f mixed_formats /\ lower f = k) /\
  export_formats Z show_seconds show_seconds sample_dump_transcript
    sample_dumps_chunk sample_path_join heard_transcript []
    (lit "out") (lit "tcpcm_ch01") mixed_formats =
  export_all Z show_seconds show_seconds sample_dump_transcript
    sample_dumps_chunk sample_path_join heard_transcript []
    (lit "out") (lit "tcpcm_ch01").
Proof.
  split; [exact mixed_formats_cover|].
  exact (export_formats_all Z show_seconds show_seconds
           sample_dump_transcript sample_dumps_chunk sample_path_join
           heard_transcript [] (lit "out") (lit "tcpcm_ch01")
           mixed_formats mixed_formats_cover).
Defined.

End ExportTheorems.

Module CliTheorems.

Import ExportTheorems.

Lemma digit_facts (c : ascii) :
  isdigit c = true ->
  lower_char c = c /\ c <> " "%char /\
  Ascii.eqb c "+" = false /\ Ascii.eqb c "-" = false.
Proof.
  destruct c as [[] [] [] [] [] [] [] []]; vm_compute; intros H;
    try discriminate; repeat split; congruence.
Qed.

Lemma take_digits_all (s : str) : forallb isdigit (take_digits s) = true.
Proof.
  induction s as [|c s IH]; simpl; [reflexivity|].
  destruct (isdigit c) eqn:E; [|reflexivity].
  simpl. rewrite E. exact IH.
Qed.

Lemma match_chapter_digits (s digits : str) :
  match_chapter s = Some digits ->
  digits <> [] /\ forallb isdigit digits = true.
Proof.
  unfold match_chapter. destruct s as [|c [|h rest]]; try discriminate.
  destruct (_ && _); [|discriminate].
  pose proof (take_digits_all (lstrip rest)) as H.
  destruct (take_digits (lstrip rest)) as [|d ds]; [discriminate|].
  intros Heq. inversion Heq; subst. split; [discriminate|exact H].
Qed.

Lemma search_chapter_digits (s : str) :
  forall digits,
    search_chapter s = Some digits ->
    digits <> [] /\ forallb isdigit digits = true.
Proof.
  induction s as [|c s IH]; intros digits H; cbn [search_chapter] in H.
  - discriminate.
  - destruct (match_chapter (c :: s)) as [d|] eqn:E.
    + inversion H; subst. eapply match_chapter_digits; eauto.
    + apply IH. exact H.
Qed.

Lemma zfill_digits (digits : str) :
  digits <> [] -> forallb isdigit digits = true ->
  zfill 2 digits = repeat "0"%char (2 - length digits) ++ digits /\
  forallb isdigit (zfill 2 digits) = true /\
  (2 <= length (zfill 2 digits))%nat.
Proof.
  intros Hne Hd. destruct digits as [|c rest]; [congruence|].
  assert (Hc : isdigit c = true).
  { simpl in Hd. apply andb_prop in Hd. tauto. }
  destruct (digit_facts c Hc) as [_ [_ [Hplus Hminus]]].
  assert (Hz : zfill 2 (c :: rest)
               = repeat "0"%char (2 - length (c :: rest)) ++ c :: rest).
  { unfold zfill. rewrite Hplus, Hminus. reflexivity. }
  rewrite Hz. split; [reflexivity|]. split.
  - rewrite forallb_app, Hd, andb_true_r.
    apply forallb_forall. intros x Hx. apply repeat_spec in Hx.
    subst x. reflexivity.
  - rewrite length_app, repeat_length. cbn [length]. lia.
Qed.

Lemma digits_plain (s : str) :
  forallb isdigit s = true -> ~ In " "%char s /\ lower s = s.
Proof.
  induction s as [|c s IH]; intros H; simpl in *; [auto|].
  apply andb_prop in H. destruct H as [Hc Hs].
  destruct (digit_facts c Hc) as [Hl [Hsp _]].
  destruct (IH Hs) as [Hno Hlow]. split.
  - intros [Heq|Hin]; [congruence|contradiction].
  - rewrite Hl, Hlow. reflexivity.
Qed.

Lemma replace_spaces_plain (s : str) :
  ~ In " "%char (replace_spaces (lower s)) /\
  lower (replace_spaces (lower s)) = replace_spaces (lower s).
Proof.
  induction s as [|c s [Hno Hlow]]; simpl; [auto|].
  destruct (Ascii.eqb (lower_char c) " ") eqn:E.
  - split; [intros [Heq|Hin]; [discriminate|contradiction]|].
    rewrite Hlow. reflexivity.
  - split.
    + intros [Heq|Hin]; [|contradiction].
      rewrite Heq, Ascii.eqb_refl in E. discriminate.
    + rewrite lower_char_idempotent, Hlow. reflexivity.
Qed.

(** X18.  The base name of the output files begins with "tcpcm_", has
    no space and no capital letter.  When the stem of the input file
    has "ch", optional whitespace and digits, in any letter case, the
    rest of the name is "ch" and these digits of the leftmost such
    place, padded with zeros to two digits; otherwise it is the stem in
    small letters with every space replaced by an underscore. *)
Theorem safe_stem_shape (input_stem : str) :
  exists rest,
    safe_stem input_stem = lit "tcpcm_" ++ rest /\
    ~ In " "%char (safe_stem input_stem) /\
    lower (safe_stem input_stem) = safe_stem input_stem /\
    (forall digits,
       search_chapter input_stem = Some digits ->
       rest = lit "ch" ++ zfill 2 digits /\
       forallb isdigit (zfill 2 digits) = true /\
       (2 <= length (zfill 2 digits))%nat) /\
    (search_chapter input_stem = None ->
     rest = replace_spaces (lower input_stem)).
Proof.
  unfold safe_stem.
  destruct (search_chapter input_stem) as [digits|] eqn:E.
  - destruct (search_chapter_digits _ _ E) as [Hne Hd].
    destruct (zfill_digits digits Hne Hd) as [_ [Hall Hlen]].
    destruct (digits_plain _ Hall) as [Hno Hlow].
    exists (lit "ch" ++ zfill 2 digits).
    split; [reflexivity|]. split.
    + intros Hin. rewrite !in_app_iff in Hin. simpl in Hin.
      intuition discriminate.
    + split.
      * unfold lower in *. rewrite map_app, Hlow. reflexivity.
      * split; [|discriminate].
        intros d Hd'. inversion Hd'; subst. auto.
  - destruct (replace_spaces_plain input_stem) as [Hno Hlow].
    exists (replace_spaces (lower input_stem)).
    split; [reflexivity|]. split.
    + intros Hin. rewrite !in_app_iff in Hin. simpl in Hin.
      intuition discriminate.
    + split.
      * unfold lower in *. rewrite map_app, Hlow. reflexivity.
      * split; [discriminate|reflexivity].
Qed.

End CliTheorems.
